(** * Lead loading, visibility filtering and bulk actions of the leads CRM

    A shallow embedding of the lead list page ([src/pages/SalesLeads.tsx])
    and of the bulk-action bar ([BulkActions]) together with the
    properties the specification states about them.

    JavaScript values are modelled as follows: a nullable string is an
    [option string]; an array is a [list]; a [Set] of identities is a
    [gset string]; React state, the console, the toasts and the traffic
    with the hosted database are fields of an explicit world that every
    handler threads through. *)

From stdpp Require Import gmap strings list pretty.

Open Scope string_scope.
Open Scope list_scope.
Open Scope nat_scope.

(** ** Data model *)

(** A row of the [leads] table, with the columns the page reads. *)
Record Lead := mkLead {
  id : string;
  first_name : string;
  last_name : string;
  email : string;
  phone : option string;
  status : string;
  assigned_to : option string;
  desk : option string;
  team : option string;
  is_converted : bool;
  created_at : string;
}.

(** The profile returned by [getCurrentUser()]. *)
Record CurrentUser := mkUser {
  user_id : string;
  full_name : option string;
  role : string;
}.

(** [{ ...lead, status: newStatus }] *)
Definition with_status (newStatus : string) (l : Lead) : Lead :=
  {| id := id l; first_name := first_name l; last_name := last_name l;
     email := email l; phone := phone l; status := newStatus;
     assigned_to := assigned_to l; desk := desk l; team := team l;
     is_converted := is_converted l; created_at := created_at l |}.

(** [{ ...lead, assigned_to: agentId }] *)
Definition with_assigned_to (agentId : option string) (l : Lead) : Lead :=
  {| id := id l; first_name := first_name l; last_name := last_name l;
     email := email l; phone := phone l; status := status l;
     assigned_to := agentId; desk := desk l; team := team l;
     is_converted := is_converted l; created_at := created_at l |}.

(** ** JavaScript primitives used by the filters *)

(** [a === b] on strings. *)
Definition str_eqb (a b : string) : bool := bool_decide (a = b).

(** [a === b] on nullable strings ([null === null] holds). *)
Definition nullable_eqb (a b : option string) : bool := bool_decide (a = b).

(** Truthiness of a nullable string: [null] and [""] are falsy. *)
Definition truthy (a : option string) : bool :=
  match a with
  | None => false
  | Some s => negb (str_eqb s "")
  end.

(** [xs.includes(x)] *)
Definition includes (xs : list string) (x : string) : bool :=
  bool_decide (x ∈ xs).

(** [lead.assigned_to && subordinateIds.includes(lead.assigned_to)],
    used as a filter condition. *)
Definition assigned_in (subordinateIds : list string) (l : Lead) : bool :=
  match assigned_to l with
  | None => false
  | Some a => truthy (Some a) && includes subordinateIds a
  end.

(** ** Visibility filter *)

(** The arrow function given to [allLeads.filter] for a desk viewer. *)
Definition desk_pred (u : CurrentUser) (subordinateIds : list string)
    (l : Lead) : bool :=
  nullable_eqb (desk l) (full_name u)
  || nullable_eqb (assigned_to l) (Some (user_id u))
  || assigned_in subordinateIds l.

(** The arrow function for a manager viewer. *)
Definition manager_pred (u : CurrentUser) (subordinateIds : list string)
    (l : Lead) : bool :=
  nullable_eqb (assigned_to l) (Some (user_id u))
  || assigned_in subordinateIds l.

(** The arrow function for an agent viewer. *)
Definition agent_pred (u : CurrentUser) (l : Lead) : bool :=
  nullable_eqb (assigned_to l) (Some (user_id u)).

(** Hierarchy filtering of the first batch (fetchLeads, lines 118-139). *)
Definition filterFirstBatch (u : CurrentUser) (subordinateIds : list string)
    (allLeads : list Lead) : list Lead :=
  if str_eqb (role u) "admin" then allLeads
  else if str_eqb (role u) "desk" then
    List.filter (desk_pred u subordinateIds) allLeads
  else if str_eqb (role u) "manager" then
    List.filter (manager_pred u subordinateIds) allLeads
  else if str_eqb (role u) "agent" then
    List.filter (agent_pred u) allLeads
  else allLeads.

(** Hierarchy filtering of a background batch (loadRemaining, lines
    184-206): the same chain, written a second time in the source. *)
Definition filterBatch (u : CurrentUser) (subordinateIds : list string)
    (data : list Lead) : list Lead :=
  if str_eqb (role u) "admin" then data
  else if str_eqb (role u) "desk" then
    List.filter (desk_pred u subordinateIds) data
  else if str_eqb (role u) "manager" then
    List.filter (manager_pred u subordinateIds) data
  else if str_eqb (role u) "agent" then
    List.filter (agent_pred u) data
  else data.

(** The predicate the chain applies to a single lead: what it means for
    a lead to be visible to a viewer. *)
Definition visible (u : CurrentUser) (subordinateIds : list string)
    (l : Lead) : bool :=
  if str_eqb (role u) "admin" then true
  else if str_eqb (role u) "desk" then desk_pred u subordinateIds l
  else if str_eqb (role u) "manager" then manager_pred u subordinateIds l
  else if str_eqb (role u) "agent" then agent_pred u l
  else true.

(** [subordinateIds] as fetchLeads computes it: the hierarchy service is
    asked only for desk and manager viewers; [subs] is its answer. *)
Definition subordinateIdsFor (u : CurrentUser) (subs : list string)
    : list string :=
  if includes ["desk"; "manager"] (role u) then subs else [].

(** ** The hosted database, as the page sees it *)

(** A row of the [lead_activities] audit table. *)
Record Activity := mkActivity {
  lead_id : string;
  type : string;
  description : string;
}.

(** The object passed to [.update(...)]. *)
Inductive Patch :=
| SetStatus (newStatus : string)
| SetAssignedTo (agentId : option string).

(** The queries the two components send. *)
Inductive Request :=
| SelectLeads (from to : nat)
    (* from("leads").select(..).eq("is_converted", false)
       .order("created_at", { ascending: false }).range(from, to) *)
| UpdateLeads (p : Patch) (ids : list string)
    (* from("leads").update(p).eq("id", x) / .in("id", ids) *)
| DeleteLeads (ids : list string)
    (* from("leads").delete().in("id", ids) *)
| InsertActivity (a : Activity).
    (* from("lead_activities").insert(a) *)

(** The [{ data, error }] object a select resolves to. *)
Record Response := mkResponse {
  data : option (list Lead);
  error : option string;
}.

(** The two tables. [leads_table] is kept in the order in which the
    service returns rows for [order("created_at", { ascending: false })]. *)
Record Backend := mkBackend {
  leads_table : list Lead;
  lead_activities : list Activity;
}.

Definition apply_patch (p : Patch) (l : Lead) : Lead :=
  match p with
  | SetStatus s => with_status s l
  | SetAssignedTo a => with_assigned_to a l
  end.

(** What a request that the service accepts does to the tables. *)
Definition exec (q : Request) (b : Backend) : Backend :=
  match q with
  | SelectLeads _ _ => b
  | UpdateLeads p ids =>
      {| leads_table :=
           (λ l, if includes ids (id l) then apply_patch p l else l)
             <$> leads_table b;
         lead_activities := lead_activities b |}
  | DeleteLeads ids =>
      {| leads_table :=
           List.filter (λ l, negb (includes ids (id l))) (leads_table b);
         lead_activities := lead_activities b |}
  | InsertActivity a =>
      {| leads_table := leads_table b;
         lead_activities := lead_activities b ++ [a] |}
  end.

(** The rows matching [is_converted = false], in served order. *)
Definition matching (b : Backend) : list Lead :=
  List.filter (λ l, negb (is_converted l)) (leads_table b).

(** A service that answers every range query from its table without
    failing; [range(from, to)] is inclusive at both ends. *)
Definition store_range (b : Backend) (from to : nat) : Response :=
  {| data := Some (take (to + 1 - from) (drop from (matching b)));
     error := None |}.

(** ** The world the handlers run in *)

Inductive ConsoleEntry :=
| LogStart
| LogRendered (n : nat)
| LogFetching (iterations offset : nat)
| ErrorNextBatch (e : string)            (* console.error *)
| LogReceived (n iterations : nat)
| LogAdded (n : nat)
| LogSkipped
| WarnMaxIterations                      (* console.warn *)
| LogFinished (iterations offset : nat)
| ErrorFetchingLeads (e : string)        (* console.error *)
| ErrorUpdatingStatus (e : string)       (* console.error *)
| ErrorAssigningAgent (e : string)       (* console.error *)
| ErrorDeletingLeads (e : string).       (* console.error *)

Inductive Toast :=
| ToastSuccess (msg : string)
| ToastError (msg : string).

Record World := mkWorld {
  leads : list Lead;              (* useState<Lead[]>([]) *)
  loading : bool;
  refreshTrigger : nat;
  selectedLeads : list Lead;
  dataTableSelection : gset string;
  console : list ConsoleEntry;    (* oldest first *)
  toasts : list Toast;            (* oldest first *)
  requests : list Request;        (* every query sent, oldest first *)
  backend : Backend;
}.

Definition setLeads (f : list Lead → list Lead) (w : World) : World :=
  {| leads := f (leads w); loading := loading w;
     refreshTrigger := refreshTrigger w; selectedLeads := selectedLeads w;
     dataTableSelection := dataTableSelection w; console := console w;
     toasts := toasts w; requests := requests w; backend := backend w |}.

Definition setLoading (v : bool) (w : World) : World :=
  {| leads := leads w; loading := v;
     refreshTrigger := refreshTrigger w; selectedLeads := selectedLeads w;
     dataTableSelection := dataTableSelection w; console := console w;
     toasts := toasts w; requests := requests w; backend := backend w |}.

Definition clearSelections (w : World) : World :=
  {| leads := leads w; loading := loading w;
     refreshTrigger := refreshTrigger w; selectedLeads := [];
     dataTableSelection := ∅; console := console w;
     toasts := toasts w; requests := requests w; backend := backend w |}.

Definition console_put (c : ConsoleEntry) (w : World) : World :=
  {| leads := leads w; loading := loading w;
     refreshTrigger := refreshTrigger w; selectedLeads := selectedLeads w;
     dataTableSelection := dataTableSelection w; console := console w ++ [c];
     toasts := toasts w; requests := requests w; backend := backend w |}.

Definition toast (t : Toast) (w : World) : World :=
  {| leads := leads w; loading := loading w;
     refreshTrigger := refreshTrigger w; selectedLeads := selectedLeads w;
     dataTableSelection := dataTableSelection w; console := console w;
     toasts := toasts w ++ [t]; requests := requests w; backend := backend w |}.

(** Sending a query: it is recorded, and when the service reports no
    error it takes effect on the tables. *)
Definition send (q : Request) (err : option string) (w : World) : World :=
  {| leads := leads w; loading := loading w;
     refreshTrigger := refreshTrigger w; selectedLeads := selectedLeads w;
     dataTableSelection := dataTableSelection w; console := console w;
     toasts := toasts w; requests := requests w ++ [q];
     backend := match err with
                | None => exec q (backend w)
                | Some _ => backend w
                end |}.

(** ** The lead list page *)

Module SalesLeads.

Definition batchSize : nat := 1000.
Definition maxIterations : nat := 100.

(** The updater given to [setLeads] for a background batch (lines
    210-215): only leads whose identity is not yet displayed are added. *)
Definition appendNew (filteredBatch prev : list Lead) : list Lead :=
  let seen : gset string := list_to_set (id <$> prev) in
  let newOnes :=
    List.filter (λ l, negb (bool_decide (id l ∈ seen))) filteredBatch in
  if (length newOnes =? 0)%nat then prev else prev ++ newOnes.

(** The variables the [while] loop of loadRemaining reads and writes:
    [offset] and [hasMore] belong to the enclosing fetchLeads call,
    [iterations] to loadRemaining itself. *)
Record LoopState := mkLoop {
  offset : nat;
  hasMore : bool;
  iterations : nat;
  world : World;
}.

Inductive Flow := Continue | Break.

Section Fetch.

(** What the service answers to a range query, given its tables. Any
    function is allowed here: pages may fail, overlap or be short. *)
Variable range_query : Backend → nat → nat → Response.

(** The viewer and the answer of the hierarchy service. *)
Variable u : CurrentUser.
Variable subordinateIds : list string.

(** One pass through the body of the [while] loop (lines 151-228). *)
Definition loopBody (st : LoopState) : Flow * LoopState :=
  let iterations' := S (iterations st) in
  let w := console_put (LogFetching iterations' (offset st)) (world st) in
  let from := offset st in
  let to := offset st + batchSize - 1 in
  let r := range_query (backend w) from to in
  let w := send (SelectLeads from to) (error r) w in
  match error r with
  | Some e =>
      (Break, {| offset := offset st; hasMore := hasMore st;
                 iterations := iterations';
                 world := console_put (ErrorNextBatch e) w |})
  | None =>
      match data r with
      | Some ((_ :: _) as d) =>
          let w := console_put (LogReceived (length d) iterations') w in
          let offset' := offset st + batchSize in
          let filteredBatch := filterBatch u subordinateIds d in
          let w :=
            if (0 <? length filteredBatch)%nat then
              console_put (LogAdded (length filteredBatch))
                (setLeads (appendNew filteredBatch) w)
            else console_put LogSkipped w in
          let hasMore' :=
            if (length d <? batchSize)%nat then false else hasMore st in
          (Continue, {| offset := offset'; hasMore := hasMore';
                        iterations := iterations'; world := w |})
      | _ =>
          (Continue, {| offset := offset st; hasMore := false;
                        iterations := iterations'; world := w |})
      end
  end.

(** [while (hasMore && iterations < maxIterations) { ... }]. Every pass
    increments [iterations], so [maxIterations - iterations] passes are
    always enough; [fuel] is that bound. *)
Fixpoint while_loop (fuel : nat) (st : LoopState) : LoopState :=
  match fuel with
  | 0 => st
  | S fuel' =>
      if hasMore st && (iterations st <? maxIterations)%nat then
        match loopBody st with
        | (Break, st') => st'
        | (Continue, st') => while_loop fuel' st'
        end
      else st
  end.

(** The background continuation (lines 146-238), entered with the
    [offset] and [hasMore] of the enclosing call. *)
Definition loadRemaining (offset0 : nat) (hasMore0 : bool) (w : World)
    : World :=
  let st := while_loop maxIterations
              {| offset := offset0; hasMore := hasMore0;
                 iterations := 0; world := w |} in
  let w := if (maxIterations <=? iterations st)%nat
           then console_put WarnMaxIterations (world st)
           else world st in
  let w := console_put (LogFinished (iterations st) (offset st)) w in
  setLoading false w.

End Fetch.

Section Page.

Variable range_query : Backend → nat → nat → Response.

(** The [currentUser] state ([null] until initializeComponent has run)
    and the answer [getSubordinateIds()] would give. *)
Variable currentUser : option CurrentUser.
Variable subs : list string.

(** fetchLeads (lines 77-247). The continuation is started without
    being awaited; with no other handler running in between, its writes
    follow those of the first page in order. *)
Definition fetchLeads (w : World) : World :=
  match currentUser with
  | None => w
  | Some u =>
      let w := setLoading true w in
      let w := setLeads (λ _, []) w in
      let w := console_put LogStart w in
      let r := range_query (backend w) 0 (batchSize - 1) in
      let w := send (SelectLeads 0 (batchSize - 1)) (error r) w in
      match error r with
      | Some e =>
          setLoading false
            (toast (ToastError "Failed to fetch leads")
               (console_put (ErrorFetchingLeads e) w))
      | None =>
          let allLeads := default [] (data r) in
          let offset := 0 + batchSize in
          let subordinateIds := subordinateIdsFor u subs in
          let filteredFirstBatch :=
            filterFirstBatch u subordinateIds allLeads in
          let w := setLeads (λ _, filteredFirstBatch) w in
          let w := console_put (LogRendered (length filteredFirstBatch)) w in
          loadRemaining range_query u subordinateIds offset true w
      end
  end.

(** onActionComplete (lines 254-257) *)
Definition onActionComplete (w : World) : World :=
  clearSelections (fetchLeads w).

End Page.

(** handleStatusChange (lines 341-367). [update_error] and
    [insert_error] are the [error] fields the two awaited calls resolve
    with; the second one is never read. *)
Definition handleStatusChange (update_error insert_error : option string)
    (leadId newStatus : string) (w : World) : World :=
  let w := send (UpdateLeads (SetStatus newStatus) [leadId]) update_error w in
  match update_error with
  | Some e =>
      toast (ToastError "Failed to update status")
        (console_put (ErrorUpdatingStatus e) w)
  | None =>
      let w := send (InsertActivity
                       {| lead_id := leadId; type := "status_change";
                          description := "Status changed to " +:+ newStatus |})
                 insert_error w in
      let w := toast (ToastSuccess "Status updated successfully") w in
      setLeads (λ prevLeads,
                 (λ lead, if str_eqb (id lead) leadId
                          then with_status newStatus lead else lead)
                   <$> prevLeads) w
  end.

(** handleAssignAgent (lines 369-402) *)
Definition handleAssignAgent (update_error insert_error : option string)
    (leadId : string) (agentId : option string) (w : World) : World :=
  let w := send (UpdateLeads (SetAssignedTo agentId) [leadId]) update_error w in
  match update_error with
  | Some e =>
      toast (ToastError "Failed to assign agent")
        (console_put (ErrorAssigningAgent e) w)
  | None =>
      let w := send (InsertActivity
                       {| lead_id := leadId; type := "assignment";
                          description := if truthy agentId
                                         then "Lead assigned"
                                         else "Lead unassigned" |})
                 insert_error w in
      let w := toast (ToastSuccess (if truthy agentId
                                    then "Lead assigned successfully"
                                    else "Lead unassigned successfully")) w in
      setLeads (λ prevLeads,
                 (λ lead, if str_eqb (id lead) leadId
                          then with_assigned_to agentId lead else lead)
                   <$> prevLeads) w
  end.

End SalesLeads.

(** ** The bulk-action bar *)

Module BulkActions.

Section Bar.

(** The props of the component: [selectedLeads] is read from the world,
    [onActionComplete] is the callback of the page. *)
Variable onActionComplete : World → World.

(** checkUserRole (lines 25-28): the value given to [setIsAdmin]. *)
Definition checkUserRole (user : option CurrentUser) : bool :=
  match user with
  | None => false
  | Some usr => str_eqb (role usr) "admin" || str_eqb (role usr) "desk"
  end.

(** [Promise.all(selectedLeads.map(lead => insert(..)))]: one insert per
    selected lead, in order; [insert_error i] is the [error] field the
    i-th insert resolves with. Nothing reads it. *)
Fixpoint insert_all (mk : Lead → Activity) (insert_error : nat → option string)
    (i : nat) (sel : list Lead) (w : World) : World :=
  match sel with
  | [] => w
  | lead :: rest =>
      insert_all mk insert_error (S i) rest
        (send (InsertActivity (mk lead)) (insert_error i) w)
  end.

(** handleStatusChange (lines 79-104) *)
Definition handleStatusChange (update_error : option string)
    (insert_error : nat → option string) (newStatus : string) (w : World)
    : World :=
  let w := send (UpdateLeads (SetStatus newStatus) (id <$> selectedLeads w))
             update_error w in
  match update_error with
  | Some e =>
      toast (ToastError "Failed to update status")
        (console_put (ErrorUpdatingStatus e) w)
  | None =>
      let w := insert_all
                 (λ lead, {| lead_id := id lead; type := "status_change";
                             description := "Status changed to " +:+ newStatus
                                            +:+ " (bulk update)" |})
                 insert_error 0 (selectedLeads w) w in
      let w := toast (ToastSuccess "Status updated for selected leads") w in
      onActionComplete w
  end.

(** handleAssignAgent (lines 106-131) *)
Definition handleAssignAgent (update_error : option string)
    (insert_error : nat → option string) (agentId : option string)
    (w : World) : World :=
  let w := send (UpdateLeads (SetAssignedTo agentId) (id <$> selectedLeads w))
             update_error w in
  match update_error with
  | Some e =>
      toast (ToastError "Failed to assign agent")
        (console_put (ErrorAssigningAgent e) w)
  | None =>
      let w := insert_all
                 (λ lead, {| lead_id := id lead; type := "assignment";
                             description :=
                               if truthy agentId
                               then "Lead assigned (bulk update)"
                               else "Lead unassigned (bulk update)" |})
                 insert_error 0 (selectedLeads w) w in
      let w := toast (ToastSuccess (if truthy agentId
                                    then "Leads assigned successfully"
                                    else "Leads unassigned successfully")) w in
      onActionComplete w
  end.

(** handleDeleteLeads (lines 133-157). [isAdmin] is the component state
    set by checkUserRole, [confirmed] the answer to [window.confirm],
    [delete_error] the [error] field the delete resolves with. *)
Definition handleDeleteLeads (isAdmin confirmed : bool)
    (delete_error : option string) (w : World) : World :=
  if negb isAdmin then toast (ToastError "Only admins can delete leads") w
  else if negb confirmed then w
  else
    let w := send (DeleteLeads (id <$> selectedLeads w)) delete_error w in
    match delete_error with
    | Some e =>
        toast (ToastError "Failed to delete leads")
          (console_put (ErrorDeletingLeads e) w)
    | None =>
        onActionComplete (toast (ToastSuccess "Leads deleted successfully") w)
    end.

End Bar.

End BulkActions.

(** ** Notions used to state the properties *)

Import SalesLeads.

(** The condition of the [while] loop. *)
Definition guard (st : LoopState) : bool :=
  hasMore st && (iterations st <? maxIterations)%nat.

(** [passes rq u s k st0 = Some st]: starting in [st0], the loop makes
    [k] full passes, none of which leaves through [break], and is then
    in state [st]. *)
Fixpoint passes (rq : Backend → nat → nat → Response) (u : CurrentUser)
    (s : list string) (k : nat) (st : LoopState) : option LoopState :=
  match k with
  | 0 => Some st
  | S k' =>
      if guard st then
        match loopBody rq u s st with
        | (Continue, st') => passes rq u s k' st'
        | (Break, _) => None
        end
      else None
  end.

(** The range query for page [i]. *)
Definition page_request (i : nat) : Request :=
  SelectLeads (i * batchSize) (i * batchSize + batchSize - 1).

(** Whether a request is a page request. *)
Definition is_page_request (q : Request) : bool :=
  match q with
  | SelectLeads _ _ => true
  | _ => false
  end.

(** Number of page requests among a list of requests. *)
Definition page_requests (qs : list Request) : nat :=
  length (List.filter is_page_request qs).

(** Number of background passes a run makes over [n] matching rows. *)
Definition background_passes (n : nat) : nat :=
  Nat.min maxIterations (Nat.max 1 (n / batchSize)).

(** The value of [iterations] when the loop, entered with [iterations]
    equal to [i] and a full page behind it, stops over [n] matching
    rows. *)
Definition final_pass (i n : nat) : nat :=
  Nat.min maxIterations (Nat.max (S i) (n / batchSize)).

(** [ceil(n / batchSize)] *)
Definition ceil_pages (n : nat) : nat :=
  (n + batchSize - 1) / batchSize.

(** No two leads of the list have the same identity. *)
Definition distinct_ids (ls : list Lead) : Prop := NoDup (id <$> ls).

(** Every lead of a page is unconverted and no identity occurs twice
    in it: what a range query over a table keyed by [id] returns. *)
Definition page_ok (r : Response) : Prop :=
  match data r with
  | None => True
  | Some d => distinct_ids d ∧ Forall (λ l, is_converted l = false) d
  end.

(** The invariant of the displayed collection for viewer [u]. *)
Definition displayed_ok (u : CurrentUser) (s : list string)
    (ls : list Lead) : Prop :=
  distinct_ids ls ∧
  Forall (λ l, is_converted l = false ∧ visible u s l = true) ls.

(** The part of the invariant that does not mention visibility. *)
Definition displayed_rows_ok (ls : list Lead) : Prop :=
  distinct_ids ls ∧ Forall (λ l, is_converted l = false) ls.

(** The test [appendNew] applies to a lead of the batch: its identity
    is not displayed yet. *)
Definition fresh_in (prev : list Lead) (l : Lead) : bool :=
  negb (bool_decide (id l ∈ (list_to_set (id <$> prev) : gset string))).

(** The page the loop asks for in state [st]. *)
Definition page_of (rq : Backend → nat → nat → Response) (st : LoopState)
    : Response :=
  rq (backend (world st)) (offset st) (offset st + batchSize - 1).

(** The state in which [break] leaves the loop when the request of
    state [st] fails with [e]. *)
Definition broken (st : LoopState) (e : string) : LoopState :=
  {| offset := offset st; hasMore := hasMore st;
     iterations := S (iterations st);
     world :=
       console_put (ErrorNextBatch e)
         (send (SelectLeads (offset st) (offset st + batchSize - 1)) (Some e)
            (console_put (LogFetching (S (iterations st)) (offset st))
               (world st))) |}.

(** What loadRemaining does after the loop (lines 231-237). *)
Definition finish (st : LoopState) : World :=
  setLoading false
    (console_put (LogFinished (iterations st) (offset st))
       (if (maxIterations <=? iterations st)%nat
        then console_put WarnMaxIterations (world st)
        else world st)).

(** [l'] is [l] with at most the [status] column changed. *)
Definition same_but_status (l l' : Lead) : Prop :=
  id l' = id l ∧ first_name l' = first_name l ∧ last_name l' = last_name l ∧
  email l' = email l ∧ phone l' = phone l ∧
  assigned_to l' = assigned_to l ∧ desk l' = desk l ∧ team l' = team l ∧
  is_converted l' = is_converted l ∧ created_at l' = created_at l.

(** [l'] is [l] with at most the [assigned_to] column changed. *)
Definition same_but_assigned_to (l l' : Lead) : Prop :=
  id l' = id l ∧ first_name l' = first_name l ∧ last_name l' = last_name l ∧
  email l' = email l ∧ phone l' = phone l ∧
  status l' = status l ∧ desk l' = desk l ∧ team l' = team l ∧
  is_converted l' = is_converted l ∧ created_at l' = created_at l.

(** The audit record of a bulk status change. *)
Definition bulk_status_activity (newStatus : string) (l : Lead) : Activity :=
  {| lead_id := id l; type := "status_change";
     description := "Status changed to " +:+ newStatus +:+ " (bulk update)" |}.

(** The audit record of a bulk assignment. *)
Definition bulk_assignment_activity (agentId : option string) (l : Lead)
    : Activity :=
  {| lead_id := id l; type := "assignment";
     description := if truthy agentId then "Lead assigned (bulk update)"
                    else "Lead unassigned (bulk update)" |}.

(** ** Sample data *)

Definition sample_lead (i : string) (a : option string) : Lead :=
  {| id := i; first_name := "Ada"; last_name := "Lovelace";
     email := "ada@example.com"; phone := None; status := "New";
     assigned_to := a; desk := Some "Desk A"; team := None;
     is_converted := false; created_at := "2024-01-01T00:00:00Z" |}.

(** A table of [n] unconverted, unassigned leads with identities
    ["0"], ["1"], ... *)
Definition sample_table (n : nat) : list Lead :=
  (λ k, sample_lead (pretty k) None) <$> seq 0 n.

Definition empty_world (b : Backend) : World :=
  {| leads := []; loading := true; refreshTrigger := 0; selectedLeads := [];
     dataTableSelection := ∅; console := []; toasts := []; requests := [];
     backend := b |}.

Definition sample_admin : CurrentUser :=
  {| user_id := "u0"; full_name := Some "Root"; role := "admin" |}.
Definition sample_desk : CurrentUser :=
  {| user_id := "u9"; full_name := Some "Desk A"; role := "desk" |}.
Definition sample_manager : CurrentUser :=
  {| user_id := "u1"; full_name := Some "Mia"; role := "manager" |}.
Definition sample_agent : CurrentUser :=
  {| user_id := "u1"; full_name := Some "Ann"; role := "agent" |}.
Definition sample_guest : CurrentUser :=
  {| user_id := "u7"; full_name := None; role := "viewer" |}.

(** Three leads: one assigned to u1, one to u2, one to u4. *)
Definition sample_own : Lead := sample_lead "a" (Some "u1").
Definition sample_sub : Lead := sample_lead "b" (Some "u2").
Definition sample_far : Lead := sample_lead "c" (Some "u4").
Definition sample_batch : list Lead := [sample_own; sample_sub; sample_far].

(** A lead whose [assigned_to] is the empty string. *)
Definition sample_blank : Lead := sample_lead "d" (Some "").

(** A service that fails on the page starting at row 2000 and answers
    every other page from its table. *)
Definition flaky_range (b : Backend) (from to : nat) : Response :=
  if (from =? 2000)%nat
  then {| data := None; error := Some "connection reset" |}
  else store_range b from to.

(** The loop variables with which fetchLeads enters loadRemaining. *)
Definition entry (w : World) : LoopState :=
  {| offset := 0 + batchSize; hasMore := true; iterations := 0; world := w |}.

(** The world in which fetchLeads starts loadRemaining for an admin
    viewer over the first page of a table. *)
Definition after_first_page (b : Backend) : World :=
  setLeads (λ _, take batchSize (matching b)) (empty_world b).

(** A table of 2500 leads, the world after its first page is shown to
    an admin, and the loop state one pass later. *)
Definition sample_backend : Backend :=
  {| leads_table := sample_table 2500; lead_activities := [] |}.
Definition sample_entry : LoopState :=
  entry (after_first_page sample_backend).
Definition sample_second : LoopState :=
  default sample_entry (passes flaky_range sample_admin [] 1 sample_entry).

(** A run of the fetcher for an admin over a table of [n] leads. *)
Definition sample_run (n : nat) : World :=
  fetchLeads store_range (Some sample_admin) []
    (empty_world {| leads_table := sample_table n; lead_activities := [] |}).

(** A world in which the three sample leads are stored, displayed and
    selected, and an audit sink whose second insert fails. *)
Definition sample_selection : World :=
  {| leads := sample_batch; loading := false; refreshTrigger := 0;
     selectedLeads := sample_batch;
     dataTableSelection := {[ "a"; "b"; "c" ]};
     console := []; toasts := []; requests := [];
     backend := {| leads_table := sample_batch; lead_activities := [] |} |}.
Definition second_insert_fails (i : nat) : option string :=
  if i =? 1 then Some "insert failed" else None.

(** ** What the bulk-action bar renders *)

(** BulkActions renders nothing when [selectedLeads.length === 0]
    (line 159). *)
Definition bar_rendered (w : World) : bool :=
  negb (length (selectedLeads w) =? 0).

(** ** The agents offered by the bulk-action bar *)

(** [xs.findIndex(p)]; [None] stands for the result -1. *)
Fixpoint findIndex {A} (p : A → bool) (xs : list A) : option nat :=
  match xs with
  | [] => None
  | x :: rest => if p x then Some 0 else S <$> findIndex p rest
  end.

(** [xs.filter((x, index) => p(x, index))] *)
Definition filter_indexed {A} (p : A → nat → bool) (xs : list A) : list A :=
  snd <$> List.filter (λ ix, p ix.2 ix.1) (zip (seq 0 (length xs)) xs).

(** fetchAvailableAgents (lines 50-66): the users the viewer may assign
    leads to, out of the rows of [user_profiles]. The [manager_id]
    column of a row is selected but not read here. *)
Definition assignableUsers (user : CurrentUser) (subordinateIds : list string)
    (allUsers : list CurrentUser) : list CurrentUser :=
  if str_eqb (role user) "admin" then
    List.filter (λ x, includes ["agent"; "manager"; "desk"] (role x)) allUsers
  else if includes ["desk"; "manager"] (role user) then
    List.filter (λ x, str_eqb (user_id x) (user_id user)
                      || includes subordinateIds (user_id x)) allUsers
  else [user].

(** fetchAvailableAgents (lines 69-71): duplicates removed, the first
    row of each identity kept. This is the array that is then sorted by
    name and stored. *)
Definition uniqueUsers (assignable : list CurrentUser) : list CurrentUser :=
  filter_indexed
    (λ user index,
       bool_decide
         (Some index =
          findIndex (λ x, str_eqb (user_id x) (user_id user)) assignable))
    assignable.

(** ** The date filter of the table *)

Module DataTable.

Record DateFilterOption := mkOption {
  label : string;
  value : string;
}.

(** The [label] and [value] of the entries of DATE_FILTER_OPTIONS; the
    [getDateRange] method of an entry reads the clock and is a
    parameter below. *)
Definition DATE_FILTER_OPTIONS : list DateFilterOption :=
  [ {| label := "Today"; value := "today" |};
    {| label := "Yesterday"; value := "yesterday" |};
    {| label := "This Week"; value := "thisWeek" |};
    {| label := "Past Week"; value := "pastWeek" |};
    {| label := "This Month"; value := "thisMonth" |};
    {| label := "Past Month"; value := "pastMonth" |};
    {| label := "Last 7 Days"; value := "last7Days" |};
    {| label := "Last 30 Days"; value := "last30Days" |} ].

(** Whether an option value names an entry of DATE_FILTER_OPTIONS. *)
Definition known_option (optionValue : string) : bool :=
  bool_decide (optionValue ∈ value <$> DATE_FILTER_OPTIONS).

(** Whether a custom range has both dates filled in. *)
Definition complete_range (customRange : option (string * string)) : bool :=
  match customRange with
  | Some (fromDate, toDate) =>
      negb (str_eqb fromDate "") && negb (str_eqb toDate "")
  | None => false
  end.

(** The state the date handlers read and write. [filterValue] holds,
    per column, the array of ranges last given to
    [column.setFilterValue]; a column without entry has the filter
    value [undefined]. *)
Record TableState := mkTable {
  selectedDateOptions : gmap string (list string);
  customDateRanges : gmap string (string * string);
  filterValue : gmap string (list (string * string));
}.

Section Dates.

(** The identities of the columns of the table ([table.getColumn]). *)
Variable columnIds : gset string.

(** What [option.getDateRange()] returns at the time of the call. *)
Variable getDateRange : DateFilterOption → string * string.

(** The array [dateRanges] built by applyDateFilter. *)
Definition dateRangesOf (options : list string)
    (customRange : option (string * string)) : list (string * string) :=
  flat_map
    (λ optionValue,
       match find (λ opt, str_eqb (value opt) optionValue)
               DATE_FILTER_OPTIONS with
       | Some opt => [getDateRange opt]
       | None => []
       end) options
  ++ match customRange with
     | Some (fromDate, toDate) =>
         if truthy (Some fromDate) && truthy (Some toDate)
         then [(fromDate, toDate)] else []
     | None => []
     end.

(** applyDateFilter *)
Definition applyDateFilter (columnId : string) (options : list string)
    (customRange : option (string * string)) (t : TableState) : TableState :=
  if bool_decide (columnId ∈ columnIds) then
    let dateRanges := dateRangesOf options customRange in
    {| selectedDateOptions := selectedDateOptions t;
       customDateRanges := customDateRanges t;
       filterValue :=
         if 0 <? length dateRanges
         then <[columnId := dateRanges]> (filterValue t)
         else delete columnId (filterValue t) |}
  else t.

(** handleDateOptionChange *)
Definition handleDateOptionChange (columnId optionValue : string)
    (checked : bool) (t : TableState) : TableState :=
  let currentOptions := default [] (selectedDateOptions t !! columnId) in
  let newOptions :=
    if checked then currentOptions ++ [optionValue]
    else List.filter (λ opt, negb (str_eqb opt optionValue)) currentOptions in
  applyDateFilter columnId newOptions (customDateRanges t !! columnId)
    {| selectedDateOptions := <[columnId := newOptions]> (selectedDateOptions t);
       customDateRanges := customDateRanges t;
       filterValue := filterValue t |}.

(** handleCustomDateChange *)
Definition handleCustomDateChange (columnId fromDate toDate : string)
    (t : TableState) : TableState :=
  let newRange := (fromDate, toDate) in
  applyDateFilter columnId (default [] (selectedDateOptions t !! columnId))
    (Some newRange)
    {| selectedDateOptions := selectedDateOptions t;
       customDateRanges := <[columnId := newRange]> (customDateRanges t);
       filterValue := filterValue t |}.

(** clearDateFilter *)
Definition clearDateFilter (columnId : string) (t : TableState) : TableState :=
  if bool_decide (columnId ∈ columnIds) then
    {| selectedDateOptions := <[columnId := []]> (selectedDateOptions t);
       customDateRanges := <[columnId := ("", "")]> (customDateRanges t);
       filterValue := delete columnId (filterValue t) |}
  else t.

(** Whether the Custom checkbox of the popover is shown checked. *)
Definition customChecked (columnId : string) (t : TableState) : bool :=
  let currentCustomRange := default ("", "") (customDateRanges t !! columnId) in
  negb (str_eqb currentCustomRange.1 "") || negb (str_eqb currentCustomRange.2 "").

End Dates.

End DataTable.

(** ** The login form *)

Module Login.

(** The [type] of a popup; [failure] stands for the source's ['error'],
    a name the sign-in result already uses. *)
Inductive PopupType := success | failure.

Record Popup := mkPopup {
  type : PopupType;
  message : string;
}.

Inductive ConsoleError :=
| ErrorLoggingLogin (errorData : string)
| NetworkErrorLoggingLogin (e : string)
| ErrorLoggingIn (e : string).

(** The state of the form, the routes navigated to, the requests made
    to the log-login function (the user id in their body), and the
    console. *)
Record State := mkState {
  loading : bool;
  popup : option Popup;
  navigated : list string;
  posted : list string;
  console : list ConsoleError;
}.

(** What [signInWithPassword] resolves to: the user id of the session,
    if any, and the error, if any. *)
Record SignIn := mkSignIn {
  session : option string;
  error : option string;
}.

(** How the request to the log-login function ends. *)
Inductive LogResponse :=
| Ok
| NotOk (errorData : string)
| Throws (logError : string).

Definition success_message : string :=
  "Have a great day today from Cobra, wish yall make big money."
  +:+ String (Ascii.ascii_of_nat 10) ""
  +:+ "Always remember big money never comes clean.".

Definition failure_message : string :=
  "Login failed. Big money takes patience—check your details and try again!".

(** The [catch] block of handleLogin. *)
Definition caught (e : string) (st : State) : State :=
  {| loading := loading st;
     popup := Some {| type := failure; message := failure_message |};
     navigated := navigated st; posted := posted st;
     console := console st ++ [ErrorLoggingIn e] |}.

(** handleLogin (lines 17-70 of the login page) *)
Definition handleLogin (r : SignIn) (lr : LogResponse) (st : State) : State :=
  let st := {| loading := true; popup := popup st; navigated := navigated st;
               posted := posted st; console := console st |} in
  let st :=
    match error r with
    | Some e => caught e st
    | None =>
        match session r with
        | None => caught "No session returned" st
        | Some uid =>
            let st := {| loading := loading st; popup := popup st;
                         navigated := navigated st;
                         posted := posted st ++ [uid];
                         console :=
                           match lr with
                           | Ok => console st
                           | NotOk d => console st ++ [ErrorLoggingLogin d]
                           | Throws e =>
                               console st ++ [NetworkErrorLoggingLogin e]
                           end |} in
            {| loading := loading st;
               popup := Some {| type := success; message := success_message |};
               navigated := navigated st; posted := posted st;
               console := console st |}
        end
    end in
  {| loading := false; popup := popup st; navigated := navigated st;
     posted := posted st; console := console st |}.

(** handlePopupClose *)
Definition handlePopupClose (st : State) : State :=
  match popup st with
  | Some {| type := success |} =>
      {| loading := loading st; popup := popup st;
         navigated := navigated st ++ ["/"]; posted := posted st;
         console := console st |}
  | _ =>
      {| loading := loading st; popup := None; navigated := navigated st;
         posted := posted st; console := console st |}
  end.

End Login.

(** ** Notions used to state further properties *)

(** What a fetch leaves alone: the tables, the selection and the
    refresh trigger. *)
Definition same_session (w w' : World) : Prop :=
  backend w' = backend w ∧ selectedLeads w' = selectedLeads w ∧
  dataTableSelection w' = dataTableSelection w ∧
  refreshTrigger w' = refreshTrigger w.

(** Two loop states that agree on everything the loop reads. *)
Definition same_view (st st' : LoopState) : Prop :=
  offset st = offset st' ∧ hasMore st = hasMore st' ∧
  iterations st = iterations st' ∧
  backend (world st) = backend (world st') ∧
  leads (world st) = leads (world st').

(** The rows of a table that a bulk action over [ids] does not touch. *)
Definition untouched (ids : list string) (l : Lead) : bool :=
  negb (includes ids (id l)).

(** The audit records a fan-out leaves behind: those of the selected
    leads whose insert, counted from [i], resolved without error. *)
Fixpoint recorded (mk : Lead → Activity) (insert_error : nat → option string)
    (i : nat) (sel : list Lead) : list Activity :=
  match sel with
  | [] => []
  | lead :: rest =>
      match insert_error i with
      | None => mk lead :: recorded mk insert_error (S i) rest
      | Some _ => recorded mk insert_error (S i) rest
      end
  end.

(** ** Further sample data *)

Definition sample_users : list CurrentUser :=
  [ sample_manager; sample_admin;
    {| user_id := "u2"; full_name := Some "Bo"; role := "agent" |};
    {| user_id := "u1"; full_name := Some "Mia again"; role := "manager" |};
    {| user_id := "u3"; full_name := Some "Cy"; role := "agent" |};
    sample_desk ].

(** A table of three leads as a manager's backend, and a table of
    [100 * 1000] leads. *)
Definition sample_small : Backend :=
  {| leads_table := sample_batch; lead_activities := [] |}.
Definition sample_large : Backend :=
  {| leads_table := sample_table (maxIterations * batchSize);
     lead_activities := [] |}.

(** A service whose first page fails. *)
Definition failing_range (b : Backend) (from to : nat) : Response :=
  {| data := None; error := Some "timeout" |}.

(** What an agent sees after a run over the three sample leads. *)
Definition sample_agent_view : World :=
  fetchLeads store_range (Some sample_agent) [] (empty_world sample_small).

(** A world that displays the sample batch. *)
Definition sample_shown : World :=
  setLeads (λ _, sample_batch) (empty_world sample_small).

(** ** A session: one run of the fetcher and the single-lead changes
    made while and after it loads *)

(** What writes the displayed collection once the first page has been
    handled: the next pass of the loop of loadRemaining, and the two
    single-lead handlers of the page, each with the [error] fields its
    awaited calls resolve with. A handler is taken to run to completion
    between two passes. *)
Inductive Op :=
| Pass
| ChangeStatus (update_error insert_error : option string)
    (leadId newStatus : string)
| AssignAgent (update_error insert_error : option string)
    (leadId : string) (agentId : option string).

(** The variables of the run, and whether the loop of loadRemaining is
    still to be continued: it is not once it has been left, or when the
    first request failed and loadRemaining was never started. *)
Record Session := mkSession {
  vars : LoopState;
  looping : bool;
}.

(** A handler writes the world and leaves the variables of the run. *)
Definition on_world (f : World → World) (st : LoopState) : LoopState :=
  {| offset := offset st; hasMore := hasMore st;
     iterations := iterations st; world := f (world st) |}.

(** One operation. A pass is made only while the loop is being
    continued and its condition holds; leaving through [break] or
    through the condition ends the loop. *)
Definition step (rq : Backend → nat → nat → Response) (u : CurrentUser)
    (s : list string) (o : Op) (x : Session) : Session :=
  match o with
  | Pass =>
      if looping x && guard (vars x) then
        match loopBody rq u s (vars x) with
        | (Continue, st') => {| vars := st'; looping := true |}
        | (Break, st') => {| vars := st'; looping := false |}
        end
      else {| vars := vars x; looping := false |}
  | ChangeStatus ue ie leadId newStatus =>
      {| vars := on_world (SalesLeads.handleStatusChange ue ie leadId
                             newStatus) (vars x);
         looping := looping x |}
  | AssignAgent ue ie leadId agentId =>
      {| vars := on_world (SalesLeads.handleAssignAgent ue ie leadId agentId)
                   (vars x);
         looping := looping x |}
  end.

(** The operations of [ops], one after the other. *)
Definition run (rq : Backend → nat → nat → Response) (u : CurrentUser)
    (s : list string) (ops : list Op) (x : Session) : Session :=
  foldl (λ x o, step rq u s o x) x ops.

(** The session a call of fetchLeads opens (lines 77-144 and the
    [catch] block): the first page is displayed and loadRemaining is
    started, or the failure of the first request is reported. *)
Definition start (rq : Backend → nat → nat → Response) (u : CurrentUser)
    (subs : list string) (w : World) : Session :=
  let w := setLoading true w in
  let w := setLeads (λ _, []) w in
  let w := console_put LogStart w in
  let r := rq (backend w) 0 (batchSize - 1) in
  let w := send (SelectLeads 0 (batchSize - 1)) (error r) w in
  match error r with
  | Some e =>
      {| vars := {| offset := 0; hasMore := true; iterations := 0;
                    world :=
                      setLoading false
                        (toast (ToastError "Failed to fetch leads")
                           (console_put (ErrorFetchingLeads e) w)) |};
         looping := false |}
  | None =>
      let filteredFirstBatch :=
        filterFirstBatch u (subordinateIdsFor u subs)
          (default [] (data r)) in
      let w := setLeads (λ _, filteredFirstBatch) w in
      let w := console_put (LogRendered (length filteredFirstBatch)) w in
      {| vars := entry w; looping := true |}
  end.

(** The world a run ends in when no handler runs in between: what
    loadRemaining does after the loop, if it was started. *)
Definition close (started : bool) (x : Session) : World :=
  if started then finish (vars x) else world (vars x).

(** The collection on screen. *)
Definition shown (x : Session) : list Lead := leads (world (vars x)).

(** The identities whose assignee the operations changed in place: the
    targets of the assignment changes whose update was accepted. *)
Definition reassigned (ops : list Op) : list string :=
  flat_map (λ o, match o with
                 | AssignAgent None _ leadId _ => [leadId]
                 | _ => []
                 end) ops.

(** Every page the service returns to a pass of [ops] is well formed. *)
Fixpoint pages_ok (rq : Backend → nat → nat → Response) (u : CurrentUser)
    (s : list string) (ops : list Op) (x : Session) : Prop :=
  match ops with
  | [] => True
  | o :: ops' =>
      match o with
      | Pass => looping x && guard (vars x) = true →
                page_ok (page_of rq (vars x))
      | _ => True
      end ∧ pages_ok rq u s ops' (step rq u s o x)
  end.

(** The invariant of the displayed collection, with the visibility of
    the leads whose identity is in [changed] left open. *)
Definition displayed_ok_except (u : CurrentUser) (s : list string)
    (changed : list string) (ls : list Lead) : Prop :=
  distinct_ids ls ∧
  Forall (λ l, is_converted l = false ∧
               (id l ∉ changed → visible u s l = true)) ls.

(** A service that returns at most two rows per request: the request
    for the k-th page of [batchSize] rows is answered with rows 2k and
    2k+1 of the table. *)
Definition short_range (b : Backend) (from to : nat) : Response :=
  store_range b (2 * (from / batchSize)) (2 * (from / batchSize) + 1).

(** The manager of the sample data, with subordinates u2 and u4, over
    the three sample leads served two at a time; and what happens once
    the first page is shown: the manager unassigns the own lead, the
    next pass of the loop runs, and the status of lead b is changed. *)
Definition sample_session : Session :=
  start short_range sample_manager ["u2"; "u4"] (empty_world sample_small).
Definition sample_ops : list Op :=
  [ AssignAgent None None "a" None; Pass;
    ChangeStatus None None "b" "Won" ].

(** * Properties *)

(** ** Primitives *)

Lemma str_eqb_true (a b : string) : str_eqb a b = true ↔ a = b.
Proof. unfold str_eqb. apply bool_decide_eq_true. Qed.

Lemma str_eqb_false (a b : string) : str_eqb a b = false ↔ a ≠ b.
Proof. unfold str_eqb. apply bool_decide_eq_false. Qed.

Lemma nullable_eqb_true (a b : option string) :
  nullable_eqb a b = true ↔ a = b.
Proof. unfold nullable_eqb. apply bool_decide_eq_true. Qed.

Lemma includes_true (xs : list string) (x : string) :
  includes xs x = true ↔ x ∈ xs.
Proof. unfold includes. apply bool_decide_eq_true. Qed.

Lemma assigned_in_true (s : list string) (l : Lead) :
  assigned_in s l = true ↔
  ∃ a, assigned_to l = Some a ∧ a ≠ "" ∧ a ∈ s.
Proof.
  unfold assigned_in. destruct (assigned_to l) as [a|]; simpl.
  - rewrite andb_true_iff, negb_true_iff, str_eqb_false, includes_true.
    split.
    + intros [Hne Hin]. exists a. done.
    + intros (a' & [= <-] & Hne & Hin). done.
  - split; [done | intros (a & Ha & _); done].
Qed.

Lemma filter_all {A} (p : A → bool) (l : list A) :
  (∀ x, x ∈ l → p x = true) → List.filter p l = l.
Proof.
  induction l as [|x l IH]; intros Hp; simpl; [done|].
  rewrite Hp by left. f_equal. apply IH. intros y Hy. apply Hp. by right.
Qed.

Lemma List_filter_sublist {A} (p : A → bool) (l : list A) :
  List.filter p l `sublist_of` l.
Proof.
  induction l as [|x l IH]; simpl; [done|]. destruct (p x); by constructor.
Qed.

Lemma elem_of_List_filter {A} (p : A → bool) (l : list A) (x : A) :
  x ∈ List.filter p l ↔ x ∈ l ∧ p x = true.
Proof. rewrite !list_elem_of_In. apply filter_In. Qed.

(** ** The visibility filter *)

(** Both copies of the chain filter by [visible]. *)
Lemma filterBatch_visible u s d :
  filterBatch u s d = List.filter (visible u s) d.
Proof.
  unfold filterBatch, visible.
  destruct (str_eqb (role u) "admin"); [by rewrite filter_all|].
  destruct (str_eqb (role u) "desk"); [done|].
  destruct (str_eqb (role u) "manager"); [done|].
  destruct (str_eqb (role u) "agent"); [done|].
  by rewrite filter_all.
Qed.

Lemma filterFirstBatch_filterBatch u s d :
  filterFirstBatch u s d = filterBatch u s d.
Proof. reflexivity. Qed.

Lemma filterFirstBatch_visible u s d :
  filterFirstBatch u s d = List.filter (visible u s) d.
Proof. rewrite filterFirstBatch_filterBatch. apply filterBatch_visible. Qed.

(** C3: for a viewer whose role is none of admin, desk, manager and
    agent, the filter returns the batch it was given, on the first page
    and on every background page. *)
Theorem C3_other_roles_see_everything (u : CurrentUser) (s : list string)
    (batch : list Lead) :
  role u ≠ "admin" → role u ≠ "desk" → role u ≠ "manager" →
  role u ≠ "agent" →
  filterFirstBatch u s batch = batch ∧ filterBatch u s batch = batch.
Proof.
  intros Ha Hd Hm Hg.
  apply str_eqb_false in Ha, Hd, Hm, Hg.
  unfold filterFirstBatch, filterBatch. rewrite Ha, Hd, Hm, Hg. done.
Qed.

Lemma C3_other_roles_see_everything_witness :
  (role sample_guest ≠ "admin" ∧ role sample_guest ≠ "desk" ∧
   role sample_guest ≠ "manager" ∧ role sample_guest ≠ "agent") ∧
  filterFirstBatch sample_guest ["u2"] sample_batch = sample_batch ∧
  filterBatch sample_guest ["u2"] sample_batch = sample_batch.
Proof.
  split; [done|].
  apply (C3_other_roles_see_everything sample_guest ["u2"]); done.
Defined.

(** C9: for a viewer with role agent, a lead passes the filter exactly
    when it is assigned to the viewer, whatever the subordinate set, on
    the first page and on every background page. *)
Theorem C9_agent_sees_own_leads (u : CurrentUser) (s : list string)
    (batch : list Lead) (l : Lead) :
  role u = "agent" →
  (visible u s l = true ↔ assigned_to l = Some (user_id u)) ∧
  (l ∈ filterFirstBatch u s batch ↔
     l ∈ batch ∧ assigned_to l = Some (user_id u)) ∧
  (l ∈ filterBatch u s batch ↔
     l ∈ batch ∧ assigned_to l = Some (user_id u)).
Proof.
  intros Hr.
  assert (Hv : visible u s l = true ↔ assigned_to l = Some (user_id u)).
  { unfold visible. rewrite Hr. simpl. unfold agent_pred.
    apply nullable_eqb_true. }
  split; [exact Hv|].
  rewrite filterFirstBatch_visible, filterBatch_visible.
  rewrite elem_of_List_filter, Hv. done.
Qed.

Lemma C9_agent_sees_own_leads_witness :
  role sample_agent = "agent" ∧
  (visible sample_agent ["u2"] sample_own = true ↔
     assigned_to sample_own = Some "u1") ∧
  (sample_own ∈ filterFirstBatch sample_agent ["u2"] sample_batch ↔
     sample_own ∈ sample_batch ∧ assigned_to sample_own = Some "u1") ∧
  (sample_own ∈ filterBatch sample_agent ["u2"] sample_batch ↔
     sample_own ∈ sample_batch ∧ assigned_to sample_own = Some "u1").
Proof.
  split; [reflexivity|].
  apply (C9_agent_sees_own_leads sample_agent ["u2"]). reflexivity.
Defined.

(** What the manager filter accepts, as the code decides it. *)
Lemma manager_pred_true u s l :
  manager_pred u s l = true ↔
  assigned_to l = Some (user_id u) ∨
  ∃ a, assigned_to l = Some a ∧ a ≠ "" ∧ a ∈ s.
Proof.
  unfold manager_pred.
  rewrite orb_true_iff, nullable_eqb_true, assigned_in_true. done.
Qed.

(** C5, as stated, fails: a lead whose [assigned_to] is the empty
    string is rejected although the empty string is a member of the
    subordinate set, because [lead.assigned_to && ...] is falsy. *)
Lemma C5_counterexample :
  ¬ (∀ (l : Lead) (u : CurrentUser) (s : list string) (batch : list Lead),
       role u = "manager" →
       (l ∈ filterFirstBatch u s batch ↔
          l ∈ batch ∧
          (assigned_to l = Some (user_id u) ∨
           ∃ a, assigned_to l = Some a ∧ a ∈ s))).
Proof.
  intros H.
  destruct (H sample_blank sample_manager [""] [sample_blank] eq_refl)
    as [_ Hback].
  assert (Hin : sample_blank ∈ filterFirstBatch sample_manager [""]
                                 [sample_blank]).
  { apply Hback. split; [by left|]. right. exists "". split; [done|].
    by left. }
  vm_compute in Hin. inversion Hin.
Qed.

(** C5 (amended): for a viewer with role manager, a lead passes the
    filter exactly when it is assigned to the viewer or its
    [assigned_to] is a non-empty member of the subordinate set; with
    viewer u1 and subordinates u2 and u3, of leads assigned to u1, u2 and
    u4 exactly those of u1 and u2 are kept. *)
Theorem C5_manager_sees_own_and_subordinates (u : CurrentUser)
    (s : list string) (batch : list Lead) (l : Lead) :
  role u = "manager" →
  (visible u s l = true ↔
     assigned_to l = Some (user_id u) ∨
     ∃ a, assigned_to l = Some a ∧ a ≠ "" ∧ a ∈ s) ∧
  (l ∈ filterFirstBatch u s batch ↔
     l ∈ batch ∧
     (assigned_to l = Some (user_id u) ∨
      ∃ a, assigned_to l = Some a ∧ a ≠ "" ∧ a ∈ s)) ∧
  (l ∈ filterBatch u s batch ↔
     l ∈ batch ∧
     (assigned_to l = Some (user_id u) ∨
      ∃ a, assigned_to l = Some a ∧ a ≠ "" ∧ a ∈ s)) ∧
  filterFirstBatch sample_manager ["u2"; "u3"] sample_batch
    = [sample_own; sample_sub] ∧
  filterBatch sample_manager ["u2"; "u3"] sample_batch
    = [sample_own; sample_sub].
Proof.
  intros Hr.
  assert (Hv : visible u s l = true ↔
               assigned_to l = Some (user_id u) ∨
               ∃ a, assigned_to l = Some a ∧ a ≠ "" ∧ a ∈ s).
  { unfold visible. rewrite Hr. simpl. apply manager_pred_true. }
  split; [exact Hv|].
  rewrite filterFirstBatch_visible, filterBatch_visible.
  rewrite elem_of_List_filter, Hv.
  repeat split; try tauto; vm_compute; reflexivity.
Qed.

Lemma C5_manager_sees_own_and_subordinates_witness :
  role sample_manager = "manager" ∧
  (sample_sub ∈ filterFirstBatch sample_manager ["u2"; "u3"] sample_batch ↔
     sample_sub ∈ sample_batch ∧
     (assigned_to sample_sub = Some "u1" ∨
      ∃ a, assigned_to sample_sub = Some a ∧ a ≠ "" ∧ a ∈ ["u2"; "u3"])).
Proof.
  split; [reflexivity|].
  apply (C5_manager_sees_own_and_subordinates sample_manager ["u2"; "u3"]
           sample_batch sample_sub).
  reflexivity.
Defined.

(** ** Merging a page into the displayed collection *)

Lemma fresh_in_true prev l : fresh_in prev l = true ↔ id l ∉ id <$> prev.
Proof.
  unfold fresh_in.
  rewrite negb_true_iff, bool_decide_eq_false, elem_of_list_to_set. done.
Qed.

Lemma fresh_in_false prev l : fresh_in prev l = false ↔ id l ∈ id <$> prev.
Proof.
  unfold fresh_in.
  rewrite negb_false_iff, bool_decide_eq_true, elem_of_list_to_set. done.
Qed.

Lemma filter_none {A} (p : A → bool) (l : list A) :
  (∀ x, x ∈ l → p x = false) → List.filter p l = [].
Proof.
  induction l as [|x l IH]; intros Hp; simpl; [done|].
  rewrite Hp by left. apply IH. intros y Hy. apply Hp. by right.
Qed.

Lemma appendNew_app batch prev :
  appendNew batch prev = prev ++ List.filter (fresh_in prev) batch.
Proof.
  unfold appendNew. fold (fresh_in prev).
  destruct (List.filter (fresh_in prev) batch) as [|x xs] eqn:E; simpl.
  - by rewrite app_nil_r.
  - done.
Qed.

Lemma appendNew_nil prev : appendNew [] prev = prev.
Proof. rewrite appendNew_app. simpl. by rewrite app_nil_r. Qed.

(** A batch whose identities are all new is appended whole. *)
Lemma appendNew_disjoint batch prev :
  (∀ l, l ∈ batch → id l ∉ id <$> prev) →
  appendNew batch prev = prev ++ batch.
Proof.
  intros H. rewrite appendNew_app. f_equal. apply filter_all.
  intros l Hl. apply fresh_in_true. by apply H.
Qed.

(** C6: merging a page twice gives the same collection as merging it
    once, and what a merge adds never has an identity that was already
    displayed. *)
Theorem C6_merge_idempotent (batch prev : list Lead) :
  appendNew batch (appendNew batch prev) = appendNew batch prev ∧
  ∃ added,
    appendNew batch prev = prev ++ added ∧
    ∀ l, l ∈ added → l ∈ batch ∧ id l ∉ id <$> prev.
Proof.
  split.
  - rewrite (appendNew_app batch (appendNew batch prev)).
    rewrite filter_none; [by rewrite app_nil_r|].
    intros l Hl. apply fresh_in_false.
    rewrite appendNew_app, fmap_app, elem_of_app.
    destruct (fresh_in prev l) eqn:E.
    + right. apply list_elem_of_fmap_2. apply elem_of_List_filter. done.
    + left. by apply fresh_in_false.
  - exists (List.filter (fresh_in prev) batch). split.
    + apply appendNew_app.
    + intros l [Hl Hf]%elem_of_List_filter. split; [done|].
      by apply fresh_in_true.
Qed.

(** ** The background loop, for an arbitrary service *)

Lemma batchSize_pos : 0 < batchSize.
Proof. unfold batchSize. lia. Qed.

Lemma maxIterations_pos : 0 < maxIterations.
Proof. unfold maxIterations. lia. Qed.

Lemma batchSize_val : batchSize = 1000.
Proof. reflexivity. Qed.

Lemma maxIterations_val : maxIterations = 100.
Proof. reflexivity. Qed.

Opaque batchSize maxIterations.

Lemma backend_send_select from to err w :
  backend (send (SelectLeads from to) err w) = backend w.
Proof. by destruct err. Qed.

Section Loop.

Variable rq : Backend → nat → nat → Response.
Variable u : CurrentUser.
Variable s : list string.

Lemma loopBody_error st e :
  error (page_of rq st) = Some e →
  loopBody rq u s st = (Break, broken st e).
Proof.
  unfold page_of, loopBody, broken. cbn. intros ->. reflexivity.
Qed.

Lemma loopBody_flow st :
  (loopBody rq u s st).1 = Break ↔ is_Some (error (page_of rq st)).
Proof.
  unfold page_of, loopBody. cbn.
  destruct (rq _ _ _) as [d e]. cbn.
  destruct e as [e|].
  - split; [eauto | done].
  - destruct d as [[|x d]|]; cbn; split; try done; intros [? [=]].
Qed.

Lemma loopBody_iterations st :
  iterations (loopBody rq u s st).2 = S (iterations st).
Proof.
  unfold loopBody. cbn. destruct (rq _ _ _) as [d [e|]]; cbn; [done|].
  by destruct d as [[|x d]|].
Qed.

Lemma loopBody_requests st :
  requests (world (loopBody rq u s st).2) =
  requests (world st)
    ++ [SelectLeads (offset st) (offset st + batchSize - 1)].
Proof.
  unfold loopBody. cbn. destruct (rq _ _ _) as [d [e|]]; cbn; [done|].
  destruct d as [[|x d]|]; cbn; try done.
  by case_match.
Qed.

Lemma loopBody_backend st :
  backend (world (loopBody rq u s st).2) = backend (world st).
Proof.
  unfold loopBody. cbn. destruct (rq _ _ _) as [d [e|]]; cbn; [done|].
  destruct d as [[|x d]|]; cbn; try done.
  by case_match.
Qed.

Lemma loopBody_toasts st :
  toasts (world (loopBody rq u s st).2) = toasts (world st).
Proof.
  unfold loopBody. cbn. destruct (rq _ _ _) as [d [e|]]; cbn; [done|].
  destruct d as [[|x d]|]; cbn; try done.
  by case_match.
Qed.

(** A pass leaves the displayed collection alone or merges the filtered
    page into it. *)
Lemma loopBody_leads st :
  leads (world (loopBody rq u s st).2) = leads (world st) ∨
  ∃ d, error (page_of rq st) = None ∧ data (page_of rq st) = Some d ∧
       leads (world (loopBody rq u s st).2) =
       appendNew (filterBatch u s d) (leads (world st)).
Proof.
  unfold page_of, loopBody. cbn. destruct (rq _ _ _) as [d [e|]]; cbn;
    [by left|].
  destruct d as [[|x d]|]; cbn; try by left.
  case_match; cbn; [|by left].
  right. eexists. done.
Qed.

End Loop.

Section While.

Variable rq : Backend → nat → nat → Response.
Variable u : CurrentUser.
Variable s : list string.

Lemma while_loop_S n st :
  while_loop rq u s (S n) st =
  if guard st then
    match loopBody rq u s st with
    | (Break, st') => st'
    | (Continue, st') => while_loop rq u s n st'
    end
  else st.
Proof. reflexivity. Qed.

Lemma while_loop_done n st : guard st = false → while_loop rq u s n st = st.
Proof. destruct n; [done|]. rewrite while_loop_S. by intros ->. Qed.

Lemma guard_iterations st : guard st = true → iterations st < maxIterations.
Proof.
  unfold guard. intros [_ H]%andb_true_iff. by apply Nat.ltb_lt in H.
Qed.

(** More fuel than [maxIterations - iterations] changes nothing: the
    loop never stops for lack of fuel. *)
Lemma while_loop_fuel n m st :
  maxIterations - iterations st ≤ n → n ≤ m →
  while_loop rq u s m st = while_loop rq u s n st.
Proof.
  revert m st. induction n as [|n IH]; intros m st Hn Hm.
  - rewrite !while_loop_done; [done| |].
    all: unfold guard; apply andb_false_iff; right; apply Nat.ltb_ge; lia.
  - destruct m as [|m]; [lia|]. rewrite !while_loop_S.
    destruct (guard st) eqn:Hg; [|done].
    pose proof (loopBody_iterations rq u s st) as Hit.
    destruct (loopBody rq u s st) as [[] st']; [|done].
    apply IH; simpl in *; lia.
Qed.

Lemma while_loop_break n st e :
  guard st = true → error (page_of rq st) = Some e →
  while_loop rq u s (S n) st = broken st e.
Proof.
  intros Hg He. rewrite while_loop_S, Hg, (loopBody_error _ _ _ _ e He). done.
Qed.

Lemma passes_iterations k st0 st :
  passes rq u s k st0 = Some st → iterations st = iterations st0 + k.
Proof.
  revert st0. induction k as [|k IH]; intros st0; simpl.
  - intros [= ->]. lia.
  - destruct (guard st0); [|done].
    pose proof (loopBody_iterations rq u s st0) as Hit.
    destruct (loopBody rq u s st0) as [[] st']; [|done].
    intros H%IH. simpl in Hit. lia.
Qed.

Lemma while_loop_passes k n st0 st :
  passes rq u s k st0 = Some st →
  while_loop rq u s (k + n) st0 = while_loop rq u s n st.
Proof.
  revert st0. induction k as [|k IH]; intros st0; simpl passes.
  - by intros [= ->].
  - replace (S k + n) with (S (k + n)) by lia. rewrite while_loop_S.
    destruct (guard st0); [|done].
    destruct (loopBody rq u s st0) as [[] st']; [|done].
    apply IH.
Qed.

Lemma loadRemaining_finish offset0 hasMore0 w :
  loadRemaining rq u s offset0 hasMore0 w =
  finish (while_loop rq u s maxIterations
            {| offset := offset0; hasMore := hasMore0; iterations := 0;
               world := w |}).
Proof. reflexivity. Qed.

End While.

(** C7: when a background page request returns an error, the loop is
    left at once, so that request is the last one of the run; the error
    is written to the console; and the displayed collection is the one
    that was displayed before the failing request. Here [st] is the
    state the loop is in after [k] passes, and its request fails. *)
Theorem C7_background_error_halts (rq : Backend → nat → nat → Response)
    (u : CurrentUser) (s : list string) (offset0 : nat) (w : World)
    (k : nat) (st : LoopState) (e : string) :
  passes rq u s k
    {| offset := offset0; hasMore := true; iterations := 0; world := w |}
    = Some st →
  guard st = true →
  error (page_of rq st) = Some e →
  let w' := loadRemaining rq u s offset0 true w in
  leads w' = leads (world st) ∧
  requests w' =
    requests (world st)
      ++ [SelectLeads (offset st) (offset st + batchSize - 1)] ∧
  (∃ tail, console w' =
     console (world st)
       ++ [LogFetching (S k) (offset st); ErrorNextBatch e] ++ tail ∧
     ∀ c, c ∈ tail → c = WarnMaxIterations ∨ c = LogFinished (S k) (offset st)) ∧
  toasts w' = toasts (world st) ∧
  backend w' = backend (world st) ∧
  loading w' = false.
Proof.
  intros Hp Hg He w'.
  pose proof (passes_iterations _ _ _ _ _ _ Hp) as Hit. simpl in Hit.
  pose proof (guard_iterations _ Hg) as Hlt.
  assert (Hw : w' = finish (broken st e)).
  { unfold w'. rewrite loadRemaining_finish. f_equal.
    replace maxIterations with (k + S (maxIterations - S k)) by lia.
    rewrite (while_loop_passes _ _ _ _ _ _ _ Hp).
    by apply while_loop_break. }
  rewrite Hw. unfold finish, broken. cbn. rewrite !Hit.
  destruct (maxIterations <=? S k)%nat; cbn.
  - split; [done|]. split; [done|]. split; [|done].
    exists [WarnMaxIterations; LogFinished (S k) (offset st)]. split.
    + by rewrite <- !app_assoc.
    + intros c Hc. repeat (apply elem_of_cons in Hc as [->|Hc]);
        [by left | by right | by apply elem_of_nil in Hc].
  - split; [done|]. split; [done|]. split; [|done].
    exists [LogFinished (S k) (offset st)]. split.
    + by rewrite <- !app_assoc.
    + intros c Hc. apply elem_of_cons in Hc as [->|Hc];
        [by right | by apply elem_of_nil in Hc].
Qed.

(** A pass whose request succeeds is not left through [break]. *)
Lemma passes_one rq u s st :
  guard st = true → error (page_of rq st) = None →
  is_Some (passes rq u s 1 st).
Proof.
  intros Hg He. cbn [passes]. rewrite Hg.
  pose proof (loopBody_flow rq u s st) as Hf.
  destruct (loopBody rq u s st) as [[] st']; [by eexists|].
  destruct Hf as [Hf _]. destruct (Hf eq_refl) as [e He']. congruence.
Qed.

Lemma C7_background_error_halts_witness :
  (passes flaky_range sample_admin [] 1 sample_entry = Some sample_second ∧
   guard sample_second = true ∧
   error (page_of flaky_range sample_second) = Some "connection reset") ∧
  leads (loadRemaining flaky_range sample_admin [] (offset sample_entry) true
           (world sample_entry))
    = leads (world sample_second) ∧
  requests (loadRemaining flaky_range sample_admin [] (offset sample_entry)
              true (world sample_entry))
    = requests (world sample_second) ++ [SelectLeads 2000 2999].
Proof.
  assert (H1 : passes flaky_range sample_admin [] 1 sample_entry
               = Some sample_second).
  { destruct (passes_one flaky_range sample_admin [] sample_entry
                eq_refl eq_refl) as [st Hst].
    unfold sample_second. rewrite Hst. reflexivity. }
  assert (H2 : guard sample_second = true) by (vm_compute; reflexivity).
  assert (H3 : error (page_of flaky_range sample_second)
               = Some "connection reset") by (vm_compute; reflexivity).
  split; [exact (conj H1 (conj H2 H3))|].
  pose proof (C7_background_error_halts flaky_range sample_admin []
                (offset sample_entry) (world sample_entry) 1 sample_second
                "connection reset" H1 H2 H3) as H.
  cbv zeta in H. destruct H as (Hl & Hr & _).
  split; [exact Hl|].
  etrans; [exact Hr|]. vm_compute. reflexivity.
Defined.

(** ** The invariant of the displayed collection *)

Lemma distinct_ids_filter (p : Lead → bool) (d : list Lead) :
  distinct_ids d → distinct_ids (List.filter p d).
Proof.
  unfold distinct_ids. induction d as [|x d IH]; simpl; [done|].
  intros [Hx Hd]%NoDup_cons.
  destruct (p x); [|by apply IH].
  simpl. apply NoDup_cons. split; [|by apply IH].
  intros (y & Hy & Hin)%list_elem_of_fmap. apply Hx.
  apply list_elem_of_fmap. exists y. split; [done|].
  by apply elem_of_List_filter in Hin as [? _].
Qed.

Lemma Forall_List_filter {A} (P : A → Prop) (p : A → bool) (d : list A) :
  Forall P d → Forall P (List.filter p d).
Proof.
  rewrite !Forall_forall. intros H x [Hx _]%elem_of_List_filter. by apply H.
Qed.

(** A filtered page satisfies the invariant. *)
Lemma displayed_ok_filter u s d :
  distinct_ids d → Forall (λ l, is_converted l = false) d →
  displayed_ok u s (List.filter (visible u s) d).
Proof.
  intros Hd Hc. split; [by apply distinct_ids_filter|].
  apply Forall_forall. intros l [Hl Hv]%elem_of_List_filter.
  split; [|done]. rewrite Forall_forall in Hc. by apply Hc.
Qed.

Lemma distinct_ids_appendNew batch prev :
  distinct_ids prev → distinct_ids batch →
  distinct_ids (appendNew batch prev).
Proof.
  unfold distinct_ids. intros Hp Hb.
  rewrite appendNew_app, fmap_app. apply NoDup_app. split; [done|]. split.
  - intros i Hi (l & -> & Hl)%list_elem_of_fmap.
    apply elem_of_List_filter in Hl as [_ Hf]. by apply fresh_in_true in Hf.
  - by apply distinct_ids_filter.
Qed.

Lemma Forall_appendNew (P : Lead → Prop) batch prev :
  Forall P prev → Forall P batch → Forall P (appendNew batch prev).
Proof.
  intros Hp Hb. rewrite appendNew_app. apply Forall_app. split; [done|].
  by apply Forall_List_filter.
Qed.

Lemma ids_patch_where (f : Lead → Lead) (p : Lead → bool) (ls : list Lead) :
  (∀ l, id (f l) = id l) →
  id <$> ((λ lead, if p lead then f lead else lead) <$> ls) = id <$> ls.
Proof.
  intros Hf. rewrite <- list_fmap_compose. apply list_fmap_ext.
  intros i l _. simpl. by destruct (p l).
Qed.

Lemma Forall_patch_where (P : Lead → Prop) (f : Lead → Lead)
    (p : Lead → bool) (ls : list Lead) :
  (∀ l, P l → P (f l)) → Forall P ls →
  Forall P ((λ lead, if p lead then f lead else lead) <$> ls).
Proof.
  intros Hf H. apply Forall_fmap. eapply Forall_impl; [exact H|].
  intros l Hl. simpl. destruct (p l); auto.
Qed.

Lemma leads_finish st : leads (finish st) = leads (world st).
Proof. unfold finish. cbn. by destruct (maxIterations <=? _). Qed.

Lemma displayed_ok_nil u s : displayed_ok u s [].
Proof. split; [apply NoDup_nil_2 | apply Forall_nil_2]. Qed.

Lemma leads_handleStatusChange ue ie leadId newStatus w :
  leads (SalesLeads.handleStatusChange ue ie leadId newStatus w) =
  match ue with
  | Some _ => leads w
  | None => (λ lead, if str_eqb (id lead) leadId
                     then with_status newStatus lead else lead) <$> leads w
  end.
Proof. unfold SalesLeads.handleStatusChange. by destruct ue. Qed.

Lemma leads_handleAssignAgent ue ie leadId agentId w :
  leads (SalesLeads.handleAssignAgent ue ie leadId agentId w) =
  match ue with
  | Some _ => leads w
  | None => (λ lead, if str_eqb (id lead) leadId
                     then with_assigned_to agentId lead else lead) <$> leads w
  end.
Proof. unfold SalesLeads.handleAssignAgent. by destruct ue. Qed.

(** C4, as stated, fails at the in-place assignment update. An agent
    runs the fetcher over the three sample leads and is shown the own
    lead, and the invariant holds; the agent then unassigns that lead,
    and the page keeps displaying it although it is no longer assigned
    to the agent. *)
Lemma C4_counterexample :
  leads sample_agent_view = [sample_own] ∧
  displayed_ok sample_agent (subordinateIdsFor sample_agent [])
    (leads sample_agent_view) ∧
  leads (SalesLeads.handleAssignAgent None None "a" None sample_agent_view)
  = [with_assigned_to None sample_own] ∧
  ¬ displayed_ok sample_agent (subordinateIdsFor sample_agent [])
      (leads (SalesLeads.handleAssignAgent None None "a" None
                sample_agent_view)).
Proof.
  assert (Hl : leads sample_agent_view = [sample_own])
    by (vm_compute; reflexivity).
  split; [exact Hl|]. split; [|split].
  - rewrite Hl. split.
    + apply NoDup_singleton.
    + apply Forall_singleton. split; reflexivity.
  - rewrite leads_handleAssignAgent, Hl. reflexivity.
  - intros [_ H]. rewrite leads_handleAssignAgent, Hl in H. cbn in H.
    apply Forall_singleton in H as [_ H]. vm_compute in H. discriminate.
Qed.

(** ** A run against a service that answers from its table *)

Lemma store_range_page b off :
  store_range b off (off + batchSize - 1) =
  {| data := Some (take batchSize (drop off (matching b))); error := None |}.
Proof.
  unfold store_range. pose proof batchSize_pos.
  replace (off + batchSize - 1 + 1 - off) with batchSize by lia. done.
Qed.

Lemma store_range_first b :
  store_range b 0 (batchSize - 1) =
  {| data := Some (take batchSize (matching b)); error := None |}.
Proof.
  unfold store_range. pose proof batchSize_pos.
  replace (batchSize - 1 + 1 - 0) with batchSize by lia. done.
Qed.

(** The pages of a table with distinct identities do not overlap, so a
    merge appends the whole filtered page. *)
Lemma merge_page (vis : Lead → bool) (M : list Lead) (off : nat) :
  distinct_ids M →
  appendNew (List.filter vis (take batchSize (drop off M)))
    (List.filter vis (take off M))
  = List.filter vis (take (off + batchSize) M).
Proof.
  intros Hd. rewrite appendNew_disjoint.
  - by rewrite <- List.filter_app, take_take_drop.
  - intros l [Hl _]%elem_of_List_filter Hin.
    apply list_elem_of_fmap in Hin as (l' & Hid & [Hl' _]%elem_of_List_filter).
    unfold distinct_ids in Hd.
    rewrite <- (take_drop off M), fmap_app in Hd.
    apply NoDup_app in Hd as (_ & Hdis & _).
    apply (Hdis (id l)).
    + rewrite Hid. by apply list_elem_of_fmap_2.
    + apply list_elem_of_fmap_2.
      apply elem_of_take in Hl as (i & Hi & _).
      by eapply list_elem_of_lookup_2.
Qed.

Section Store.

Variable u : CurrentUser.
Variable s : list string.

(** One pass over a table whose rows are exhausted. *)
Lemma loopBody_store_empty st :
  length (matching (backend (world st))) ≤ offset st →
  ∃ w', loopBody store_range u s st =
          (Continue, {| offset := offset st; hasMore := false;
                        iterations := S (iterations st); world := w' |}) ∧
        leads w' = leads (world st) ∧ backend w' = backend (world st) ∧
        toasts w' = toasts (world st) ∧
        requests w' = requests (world st)
                        ++ [SelectLeads (offset st) (offset st + batchSize - 1)].
Proof.
  intros Hlen. unfold loopBody. cbv zeta. rewrite store_range_page. cbn.
  rewrite drop_ge by done. rewrite take_nil. eexists. split; [done|]. done.
Qed.

(** One pass over a table that still has rows from [offset] on. *)
Lemma loopBody_store_more st :
  offset st < length (matching (backend (world st))) →
  let d := take batchSize (drop (offset st) (matching (backend (world st)))) in
  ∃ w', loopBody store_range u s st =
          (Continue, {| offset := offset st + batchSize;
                        hasMore := if length d <? batchSize then false
                                   else hasMore st;
                        iterations := S (iterations st); world := w' |}) ∧
        leads w' = appendNew (filterBatch u s d) (leads (world st)) ∧
        backend w' = backend (world st) ∧
        toasts w' = toasts (world st) ∧
        requests w' = requests (world st)
                        ++ [SelectLeads (offset st) (offset st + batchSize - 1)].
Proof.
  intros Hlen d. unfold loopBody. cbv zeta. rewrite store_range_page. cbn.
  fold d. destruct d as [|x d'] eqn:Ed.
  - exfalso. apply (f_equal length) in Ed. subst d.
    rewrite length_take, length_drop in Ed. pose proof batchSize_pos.
    simpl in Ed. lia.
  - destruct (filterBatch u s (x :: d')) as [|y fb] eqn:Ef; cbn.
    + eexists. split; [reflexivity|]. done.
    + eexists. split; [reflexivity|]. done.
Qed.

End Store.

Lemma final_pass_stop i n :
  i < maxIterations → n < (S (S i)) * batchSize → final_pass i n = S i.
Proof.
  intros Hi Hn. unfold final_pass.
  assert (n / batchSize < S (S i)).
  { apply Nat.Div0.div_lt_upper_bound. rewrite Nat.mul_comm. exact Hn. }
  generalize dependent (n / batchSize). intros q Hq. lia.
Qed.

Lemma final_pass_step i n :
  (S (S i)) * batchSize ≤ n → final_pass i n = final_pass (S i) n.
Proof.
  intros Hn. unfold final_pass.
  assert (S (S i) ≤ n / batchSize).
  { pose proof batchSize_pos. apply Nat.div_le_lower_bound; [lia|].
    rewrite Nat.mul_comm. exact Hn. }
  generalize dependent (n / batchSize). intros q Hq. lia.
Qed.

Lemma final_pass_bounds i n :
  i ≤ maxIterations → final_pass i n ≤ maxIterations ∧
  (i < maxIterations → S i ≤ final_pass i n).
Proof. unfold final_pass. generalize (n / batchSize). lia. Qed.

Lemma background_passes_final n : background_passes n = final_pass 0 n.
Proof. reflexivity. Qed.

Section StoreRun.

Variable u : CurrentUser.
Variable s : list string.

(** The loop over a table: how many passes it makes, which pages it
    asks for, and what it displays at the end. *)
Lemma while_loop_store n st :
  hasMore st = true →
  iterations st ≤ maxIterations →
  offset st = S (iterations st) * batchSize →
  maxIterations - iterations st ≤ n →
  let M := matching (backend (world st)) in
  let j := final_pass (iterations st) (length M) in
  let st' := while_loop store_range u s n st in
  iterations st' = j ∧
  backend (world st') = backend (world st) ∧
  toasts (world st') = toasts (world st) ∧
  requests (world st') =
    requests (world st)
      ++ (page_request <$> seq (S (iterations st)) (j - iterations st)) ∧
  (distinct_ids M →
   leads (world st) =
     List.filter (visible u s) (take (S (iterations st) * batchSize) M) →
   leads (world st') =
     List.filter (visible u s) (take (S j * batchSize) M)).
Proof.
  pose proof batchSize_pos as Hbs.
  revert st. induction n as [|n IH]; intros st Hm Hi Hoff Hn M j st'.
  - assert (iterations st = maxIterations) as Hmax by lia.
    assert (j = maxIterations) as Hj.
    { unfold j, final_pass. generalize (length M / batchSize). lia. }
    subst st'. simpl. rewrite Hj, Hmax, Nat.sub_diag. simpl.
    rewrite app_nil_r. done.
  - destruct (decide (iterations st = maxIterations)) as [Hmax|Hlt].
    { assert (j = maxIterations) as Hj.
      { unfold j, final_pass. generalize (length M / batchSize). lia. }
      subst st'. rewrite while_loop_done.
      - rewrite Hj, Hmax, Nat.sub_diag. simpl. rewrite app_nil_r. done.
      - unfold guard. apply andb_false_iff. right. apply Nat.ltb_ge. lia. }
    assert (Hg : guard st = true).
    { unfold guard. rewrite Hm. simpl. apply Nat.ltb_lt. lia. }
    subst st'. rewrite while_loop_S, Hg.
    destruct (decide (length M ≤ offset st)) as [Hshort|Hmore].
    + destruct (loopBody_store_empty u s st Hshort)
        as (w1 & -> & Hl1 & Hb1 & Ht1 & Hr1).
      rewrite while_loop_done by done. cbn.
      assert (Hj : j = S (iterations st)).
      { apply final_pass_stop; lia. }
      rewrite Hj. repeat apply conj; try done.
      * rewrite Hr1. replace (S (iterations st) - iterations st) with 1 by lia.
        simpl. unfold page_request. by rewrite Hoff.
      * intros _ Hl. rewrite Hl1, Hl. f_equal.
        rewrite !take_ge; [done| |]; fold M; lia.
    + destruct (loopBody_store_more u s st ltac:(fold M; lia))
        as (w1 & -> & Hl1 & Hb1 & Ht1 & Hr1).
      fold M in Hl1 |- *.
      assert (Hlen : length (take batchSize (drop (offset st) M))
                     = Nat.min batchSize (length M - offset st)).
      { by rewrite length_take, length_drop. }
      assert (Hmerge : distinct_ids M →
                leads (world st) =
                  List.filter (visible u s)
                    (take (S (iterations st) * batchSize) M) →
                leads w1 =
                  List.filter (visible u s)
                    (take (S (S (iterations st)) * batchSize) M)).
      { intros Hd Hl. rewrite Hl1, Hl, filterBatch_visible, Hoff.
        rewrite merge_page by done. f_equal. f_equal. lia. }
      destruct (length (take batchSize (drop (offset st) M)) <? batchSize)
        eqn:Elt.
      * apply Nat.ltb_lt in Elt.
        rewrite while_loop_done by done. cbn.
        assert (Hj : j = S (iterations st)).
        { apply final_pass_stop; lia. }
        rewrite Hj. repeat apply conj; try done.
        rewrite Hr1. replace (S (iterations st) - iterations st) with 1 by lia.
        simpl. unfold page_request. by rewrite Hoff.
      * apply Nat.ltb_ge in Elt.
        assert (Hj : j = final_pass (S (iterations st)) (length M)).
        { apply final_pass_step. lia. }
        match goal with |- context [while_loop _ _ _ n ?st1] =>
          specialize (IH st1) end.
        cbn in IH. rewrite Hb1 in IH. fold M in IH. rewrite <- Hj in IH.
        destruct IH as (I1 & I2 & I3 & I4 & I5); [done|lia|lia|lia|].
        repeat apply conj; try done.
        -- congruence.
        -- rewrite I4, Hr1, <- app_assoc. f_equal.
           pose proof (final_pass_bounds (S (iterations st)) (length M)
                         ltac:(lia)) as [_ Hb].
           assert (S (iterations st) ≤ j).
           { unfold j, final_pass. generalize (length M / batchSize). lia. }
           replace (j - iterations st) with (S (j - S (iterations st))) by lia.
           simpl. unfold page_request. by rewrite Hoff.
        -- intros Hd Hl. apply I5; [done|]. by apply Hmerge.
Qed.

End StoreRun.

Lemma page_requests_app qs ps :
  page_requests (qs ++ ps) = page_requests qs + page_requests ps.
Proof. unfold page_requests. by rewrite List.filter_app, length_app. Qed.

Lemma page_requests_pages (l : list nat) :
  page_requests (page_request <$> l) = length l.
Proof.
  unfold page_requests. induction l as [|i l IH]; simpl; [done|].
  by f_equal.
Qed.

Section FetchStore.

Variable u : CurrentUser.
Variable subs : list string.

Lemma requests_finish st : requests (finish st) = requests (world st).
Proof. unfold finish. cbn. by destruct (maxIterations <=? _). Qed.

Lemma backend_finish st : backend (finish st) = backend (world st).
Proof. unfold finish. cbn. by destruct (maxIterations <=? _). Qed.

Lemma toasts_finish st : toasts (finish st) = toasts (world st).
Proof. unfold finish. cbn. by destruct (maxIterations <=? _). Qed.

(** A whole run over a table. *)
Lemma fetchLeads_store w :
  let M := matching (backend w) in
  let s := subordinateIdsFor u subs in
  let j := background_passes (length M) in
  let w' := fetchLeads store_range (Some u) subs w in
  requests w' = requests w ++ (page_request <$> seq 0 (S j)) ∧
  backend w' = backend w ∧
  toasts w' = toasts w ∧
  (distinct_ids M →
   leads w' = List.filter (visible u s) (take (S j * batchSize) M)).
Proof.
  intros M s j w'. subst w' s. unfold fetchLeads. cbv zeta.
  rewrite store_range_first. cbn [error data default].
  rewrite loadRemaining_finish, requests_finish, backend_finish,
    toasts_finish, leads_finish.
  match goal with |- context [while_loop _ _ _ _ ?st] =>
    set (st0 := st) end.
  destruct (while_loop_store u (subordinateIdsFor u subs) maxIterations st0)
    as (_ & H2 & H3 & H4 & H5); [done | simpl; lia | simpl; lia | simpl; lia |].
  change (iterations st0) with 0 in *.
  change (backend (world st0)) with (backend w) in *.
  change (toasts (world st0)) with (toasts w) in *.
  change (requests (world st0))
    with (requests w ++ [SelectLeads 0 (batchSize - 1)]) in *.
  change (leads (world st0))
    with (filterFirstBatch u (subordinateIdsFor u subs) (take batchSize M))
    in *.
  fold M in H4, H5. rewrite <- background_passes_final in H4, H5.
  fold j in H4, H5.
  repeat apply conj; try done.
  - rewrite H4, <- app_assoc, Nat.sub_0_r. done.
  - intros Hd. apply H5; [done|].
    rewrite filterFirstBatch_visible. repeat f_equal; lia.
Qed.

End FetchStore.

(** Facts about the sample table. *)
Lemma sample_table_distinct n : distinct_ids (sample_table n).
Proof.
  unfold distinct_ids, sample_table. rewrite <- list_fmap_compose.
  apply NoDup_fmap_2_strong; [|apply NoDup_seq].
  intros a b _ _ H. simpl in H. by apply (inj pretty) in H.
Qed.

Lemma sample_table_matching n acts :
  matching {| leads_table := sample_table n; lead_activities := acts |}
  = sample_table n.
Proof.
  unfold matching. simpl. apply filter_all.
  intros l (k & -> & _)%list_elem_of_fmap. reflexivity.
Qed.

Lemma sample_table_length n : length (sample_table n) = n.
Proof. unfold sample_table. by rewrite length_fmap, length_seq. Qed.

Lemma background_passes_le n : background_passes n ≤ maxIterations.
Proof. unfold background_passes. generalize (n / batchSize). lia. Qed.

(** Between one page and the cap, and off the page boundaries, the
    number of requests is the number of pages. *)
Lemma background_passes_ceil n :
  batchSize < n → n < maxIterations * batchSize → n `mod` batchSize ≠ 0 →
  1 + background_passes n = ceil_pages n.
Proof.
  intros Hlo Hhi Hmod. pose proof batchSize_pos as Hbs.
  pose proof (Nat.div_mod_eq n batchSize) as Hdm.
  pose proof (Nat.mod_upper_bound n batchSize ltac:(lia)) as Hr.
  set (q := n / batchSize) in *. set (r := n `mod` batchSize) in *.
  assert (Hq1 : 1 ≤ q).
  { destruct q; [|lia]. rewrite Nat.mul_0_r in Hdm. lia. }
  assert (Hq2 : q < maxIterations).
  { destruct (decide (q < maxIterations)) as [|Hge]; [done|].
    assert (maxIterations * batchSize ≤ batchSize * q).
    { rewrite (Nat.mul_comm batchSize q).
      apply Nat.mul_le_mono_r. lia. }
    lia. }
  unfold background_passes, ceil_pages. fold q.
  replace (Nat.min maxIterations (Nat.max 1 q)) with q by lia.
  apply (Nat.div_unique _ _ _ (r - 1)); lia.
Qed.

(** C2, as stated, fails: over 500 matching leads the fetcher sends two
    page requests where [ceil(500/1000)] is one, and over 100000
    matching leads it sends 101 page requests, one more than the cap of
    100 the claim gives. *)
Lemma C2_counterexample :
  page_requests (requests (sample_run 500)) = 2 ∧
  ceil_pages 500 = 1 ∧
  page_requests (requests (sample_run (100 * 1000))) = 101 ∧
  ¬ (∀ n, page_requests (requests (sample_run n)) = ceil_pages n ∧
          page_requests (requests (sample_run n)) ≤ 100).
Proof.
  assert (Hrun : ∀ n, page_requests (requests (sample_run n))
                      = S (background_passes n)).
  { intros n. unfold sample_run.
    destruct (fetchLeads_store sample_admin []
                (empty_world {| leads_table := sample_table n;
                                lead_activities := [] |}))
      as (Hr & _).
    rewrite Hr. cbn [requests empty_world backend].
    rewrite sample_table_matching, sample_table_length.
    rewrite app_nil_l, page_requests_pages, length_seq. done. }
  assert (H500 : page_requests (requests (sample_run 500)) = 2).
  { rewrite Hrun. vm_compute. reflexivity. }
  assert (Hceil : ceil_pages 500 = 1) by (vm_compute; reflexivity).
  split; [exact H500|]. split; [exact Hceil|]. split.
  - rewrite Hrun. vm_compute. reflexivity.
  - intros H. destruct (H 500) as [Heq _]. rewrite H500, Hceil in Heq. lia.
Qed.

(** C2 (amended): over [N] matching leads a run sends the first page
    request and then [min(100, max(1, floor(N/1000)))] background page
    requests, for consecutive pages, and stops; that is never more than
    101 requests, and it is [ceil(N/1000)] when [N] lies strictly between
    one page and a hundred pages and is not a multiple of the page size.
    With 2500 matching leads it sends exactly 3 page requests and, when
    the identities are distinct and the filter accepts every lead, it
    displays all 2500 leads without duplicates. *)
Theorem C2_page_requests (u : CurrentUser) (subs : list string) (w : World) :
  let M := matching (backend w) in
  let N := length M in
  let s := subordinateIdsFor u subs in
  let w' := fetchLeads store_range (Some u) subs w in
  requests w' =
    requests w ++ (page_request <$> seq 0 (1 + background_passes N)) ∧
  page_requests (requests w') =
    page_requests (requests w) + (1 + background_passes N) ∧
  1 + background_passes N ≤ 101 ∧
  (batchSize < N → N < maxIterations * batchSize → N `mod` batchSize ≠ 0 →
   1 + background_passes N = ceil_pages N) ∧
  (N = 2500 →
   page_requests (requests w') = page_requests (requests w) + 3 ∧
   (distinct_ids M → (∀ l, l ∈ M → visible u s l = true) →
    leads w' = M ∧ length (leads w') = 2500 ∧ distinct_ids (leads w'))).
Proof.
  intros M N s w'.
  destruct (fetchLeads_store u subs w) as (Hr & _ & _ & Hl).
  fold M N s w' in Hr, Hl.
  assert (Hcount : page_requests (requests w') =
                   page_requests (requests w) + (1 + background_passes N)).
  { rewrite Hr, page_requests_app, page_requests_pages, length_seq. done. }
  repeat apply conj.
  - exact Hr.
  - exact Hcount.
  - pose proof (background_passes_le N). rewrite maxIterations_val in *. lia.
  - apply background_passes_ceil.
  - intros HN. 
    assert (Hbp : background_passes N = 2).
    { rewrite HN. vm_compute. reflexivity. }
    split; [rewrite Hcount, Hbp; done|].
    intros Hd Hvis.
    assert (leads w' = M) as ->.
    { rewrite Hl by done. rewrite Hbp, take_ge.
      - by apply filter_all.
      - fold N. rewrite HN, batchSize_val. lia. }
    done.
Qed.

Lemma C2_page_requests_witness :
  (length (matching sample_backend) = 2500 ∧
   distinct_ids (matching sample_backend) ∧
   ∀ l, l ∈ matching sample_backend → visible sample_admin [] l = true) ∧
  page_requests (requests (sample_run 2500)) = 3 ∧
  length (leads (sample_run 2500)) = 2500 ∧
  distinct_ids (leads (sample_run 2500)).
Proof.
  assert (H1 : length (matching sample_backend) = 2500).
  { unfold sample_backend.
    by rewrite sample_table_matching, sample_table_length. }
  assert (H2 : distinct_ids (matching sample_backend)).
  { unfold sample_backend. rewrite sample_table_matching.
    apply sample_table_distinct. }
  assert (H3 : ∀ l, l ∈ matching sample_backend
                    → visible sample_admin [] l = true).
  { intros l _. reflexivity. }
  split; [exact (conj H1 (conj H2 H3))|].
  pose proof (C2_page_requests sample_admin [] (empty_world sample_backend))
    as H.
  cbv zeta in H. destruct H as (_ & _ & _ & _ & H).
  destruct (H H1) as (Hc & Hd). destruct (Hd H2 H3) as (_ & Hlen & Hdis).
  split; [exact Hc|]. split; [exact Hlen | exact Hdis].
Defined.

(** ** In-place updates of a single lead *)

Lemma same_but_status_with_status newStatus l :
  same_but_status l (with_status newStatus l).
Proof. repeat split. Qed.

Lemma same_but_assigned_to_with_assigned_to agentId l :
  same_but_assigned_to l (with_assigned_to agentId l).
Proof. repeat split. Qed.

Lemma lookup_patch_where (f : Lead → Lead) (p : Lead → bool)
    (ls : list Lead) (i : nat) (l : Lead) :
  ls !! i = Some l →
  ((λ lead, if p lead then f lead else lead) <$> ls) !! i
  = Some (if p l then f l else l).
Proof. intros H. by rewrite list_lookup_fmap, H. Qed.

Lemma requests_handleStatusChange ie leadId newStatus w :
  requests (SalesLeads.handleStatusChange None ie leadId newStatus w) =
  (requests w ++ [UpdateLeads (SetStatus newStatus) [leadId]])
    ++ [InsertActivity
          {| lead_id := leadId; type := "status_change";
             description := "Status changed to " +:+ newStatus |}].
Proof. reflexivity. Qed.

Lemma requests_handleAssignAgent ie leadId agentId w :
  requests (SalesLeads.handleAssignAgent None ie leadId agentId w) =
  (requests w ++ [UpdateLeads (SetAssignedTo agentId) [leadId]])
    ++ [InsertActivity
          {| lead_id := leadId; type := "assignment";
             description := if truthy agentId then "Lead assigned"
                            else "Lead unassigned" |}].
Proof. reflexivity. Qed.

(** C10: a successful single-lead status change, and likewise a
    successful single-lead assignment change, rewrites the displayed
    collection in place: length and order of identities are kept, a
    lead with another identity is untouched, a lead with the target
    identity gets the new status (respectively assignee) and keeps all
    its other columns; the refresh trigger is not touched and no page
    request is sent. *)
Theorem C10_single_update_in_place (ie : option string)
    (leadId newStatus : string) (agentId : option string) (w : World) :
  let w1 := SalesLeads.handleStatusChange None ie leadId newStatus w in
  let w2 := SalesLeads.handleAssignAgent None ie leadId agentId w in
  (length (leads w1) = length (leads w) ∧
   id <$> leads w1 = id <$> leads w ∧
   (∀ i l, leads w !! i = Some l →
      ∃ l', leads w1 !! i = Some l' ∧
            (id l = leadId → status l' = newStatus ∧ same_but_status l l') ∧
            (id l ≠ leadId → l' = l)) ∧
   refreshTrigger w1 = refreshTrigger w ∧
   page_requests (requests w1) = page_requests (requests w) ∧
   toasts w1 = toasts w ++ [ToastSuccess "Status updated successfully"]) ∧
  (length (leads w2) = length (leads w) ∧
   id <$> leads w2 = id <$> leads w ∧
   (∀ i l, leads w !! i = Some l →
      ∃ l', leads w2 !! i = Some l' ∧
            (id l = leadId →
             assigned_to l' = agentId ∧ same_but_assigned_to l l') ∧
            (id l ≠ leadId → l' = l)) ∧
   refreshTrigger w2 = refreshTrigger w ∧
   page_requests (requests w2) = page_requests (requests w) ∧
   toasts w2 =
     toasts w ++ [ToastSuccess (if truthy agentId
                                then "Lead assigned successfully"
                                else "Lead unassigned successfully")]).
Proof.
  intros w1 w2. split.
  - subst w1. rewrite leads_handleStatusChange.
    split; [by rewrite length_fmap|].
    split; [by apply ids_patch_where|].
    split; [|split; [done|split; [|done]]].
    + intros i l Hl. eexists. split; [by apply lookup_patch_where|].
      destruct (str_eqb (id l) leadId) eqn:E.
      * split; [|by intros Hne; apply str_eqb_true in E].
        intros _. split; [done|]. apply same_but_status_with_status.
      * split; [|done]. intros Heq. by apply str_eqb_false in E.
    + rewrite requests_handleStatusChange, !page_requests_app.
      unfold page_requests. simpl. lia.
  - subst w2. rewrite leads_handleAssignAgent.
    split; [by rewrite length_fmap|].
    split; [by apply ids_patch_where|].
    split; [|split; [done|split; [|done]]].
    + intros i l Hl. eexists. split; [by apply lookup_patch_where|].
      destruct (str_eqb (id l) leadId) eqn:E.
      * split; [|by intros Hne; apply str_eqb_true in E].
        intros _. split; [done|].
        apply same_but_assigned_to_with_assigned_to.
      * split; [|done]. intros Heq. by apply str_eqb_false in E.
    + rewrite requests_handleAssignAgent, !page_requests_app.
      unfold page_requests. simpl. lia.
Qed.

(** ** What a refetch displays *)

Section Shown.

Variable P : Lead → Prop.
Variable rq : Backend → nat → nat → Response.
Variable u : CurrentUser.
Variable s : list string.

Lemma Forall_loopBody st :
  (∀ from to d, data (rq (backend (world st)) from to) = Some d → Forall P d) →
  Forall P (leads (world st)) →
  Forall P (leads (world (loopBody rq u s st).2)).
Proof.
  intros Hpages H.
  destruct (loopBody_leads rq u s st) as [->|(d & _ & Hd & ->)]; [done|].
  apply Forall_appendNew; [done|]. rewrite filterBatch_visible.
  apply Forall_List_filter. by eapply Hpages.
Qed.

Lemma Forall_while n st :
  (∀ from to d, data (rq (backend (world st)) from to) = Some d → Forall P d) →
  Forall P (leads (world st)) →
  Forall P (leads (world (while_loop rq u s n st))).
Proof.
  revert st. induction n as [|n IH]; intros st Hpages H; [done|].
  rewrite while_loop_S. destruct (guard st); [|done].
  pose proof (Forall_loopBody st Hpages H) as Hb.
  pose proof (loopBody_backend rq u s st) as Hbk.
  destruct (loopBody rq u s st) as [[] st']; [|done].
  simpl in *. apply IH; [|done]. by rewrite Hbk.
Qed.

End Shown.

(** Whatever a run displays came out of a page. *)
Lemma Forall_fetchLeads (P : Lead → Prop) rq u subs w :
  (∀ from to d, data (rq (backend w) from to) = Some d → Forall P d) →
  Forall P (leads (fetchLeads rq (Some u) subs w)).
Proof.
  intros Hpages. unfold fetchLeads. cbn.
  destruct (error (rq (backend w) 0 (batchSize - 1))) as [e|] eqn:E.
  - cbn. apply Forall_nil_2.
  - rewrite loadRemaining_finish, leads_finish.
    apply Forall_while; cbn; [done|].
    rewrite filterFirstBatch_visible. apply Forall_List_filter.
    destruct (data (rq (backend w) 0 (batchSize - 1))) as [d|] eqn:Ed; simpl.
    + by eapply Hpages.
    + apply Forall_nil_2.
Qed.

Lemma store_range_rows b from to d :
  data (store_range b from to) = Some d →
  Forall (λ l, l ∈ leads_table b) d.
Proof.
  unfold store_range. simpl. intros [= <-]. apply Forall_forall.
  intros l Hl. apply elem_of_take in Hl as (i & Hi & _).
  rewrite lookup_drop in Hi. unfold matching in Hi.
  apply list_elem_of_lookup_2, elem_of_List_filter in Hi as [Hi _]. done.
Qed.

(** ** Bulk actions *)

Lemma insert_all_requests mk ie i sel w :
  requests (BulkActions.insert_all mk ie i sel w) =
  requests w ++ ((λ l, InsertActivity (mk l)) <$> sel).
Proof.
  revert i w. induction sel as [|l sel IH]; intros i w; simpl.
  - by rewrite app_nil_r.
  - rewrite IH. cbn. by rewrite <- app_assoc.
Qed.

Lemma insert_all_frame mk ie i sel w :
  let w' := BulkActions.insert_all mk ie i sel w in
  leads w' = leads w ∧ toasts w' = toasts w ∧ console w' = console w ∧
  selectedLeads w' = selectedLeads w ∧
  leads_table (backend w') = leads_table (backend w).
Proof.
  revert i w. induction sel as [|l sel IH]; intros i w; simpl; [done|].
  destruct (IH (S i) (send (InsertActivity (mk l)) (ie i) w))
    as (H1 & H2 & H3 & H4 & H5).
  rewrite H1, H2, H3, H4, H5. cbn. by destruct (ie i).
Qed.

Lemma status_after_update ids newStatus (tbl : list Lead) l :
  l ∈ ((λ l, if includes ids (id l) then with_status newStatus l else l)
         <$> tbl) →
  id l ∈ ids → status l = newStatus.
Proof.
  intros (l0 & -> & _)%list_elem_of_fmap.
  destruct (includes ids (id l0)) eqn:E; [done|].
  intros Hin. apply includes_true in Hin. congruence.
Qed.

Lemma toasts_clearSelections w : toasts (clearSelections w) = toasts w.
Proof. reflexivity. Qed.

Lemma backend_clearSelections w : backend (clearSelections w) = backend w.
Proof. reflexivity. Qed.

Lemma leads_clearSelections w : leads (clearSelections w) = leads w.
Proof. reflexivity. Qed.

(** C8: in a bulk status update over three selected leads whose data
    mutation succeeds and whose second audit insert fails, the table
    holds the new status for every selected lead, exactly the first and
    the third audit record are appended, each insert is sent once and
    nothing is undone, and the only notification is one success toast;
    the refetch that follows displays the new status. *)
Theorem C8_bulk_status_partial_audit (u : CurrentUser) (subs : list string)
    (newStatus e : string) (insert_error : nat → option string)
    (l1 l2 l3 : Lead) (w : World) :
  selectedLeads w = [l1; l2; l3] →
  insert_error 0 = None → insert_error 1 = Some e → insert_error 2 = None →
  ∃ w1,
    (∀ onActionComplete,
       BulkActions.handleStatusChange onActionComplete None insert_error
         newStatus w = onActionComplete w1) ∧
    leads_table (backend w1) =
      ((λ l, if includes [id l1; id l2; id l3] (id l)
             then with_status newStatus l else l)
         <$> leads_table (backend w)) ∧
    (∀ l, l ∈ leads_table (backend w1) → id l ∈ [id l1; id l2; id l3] →
          status l = newStatus) ∧
    lead_activities (backend w1) =
      lead_activities (backend w)
        ++ [bulk_status_activity newStatus l1;
            bulk_status_activity newStatus l3] ∧
    requests w1 =
      requests w
        ++ [UpdateLeads (SetStatus newStatus) [id l1; id l2; id l3];
            InsertActivity (bulk_status_activity newStatus l1);
            InsertActivity (bulk_status_activity newStatus l2);
            InsertActivity (bulk_status_activity newStatus l3)] ∧
    toasts w1 = toasts w ++ [ToastSuccess "Status updated for selected leads"] ∧
    console w1 = console w ∧
    let w2 := SalesLeads.onActionComplete store_range (Some u) subs w1 in
    toasts w2 = toasts w ++ [ToastSuccess "Status updated for selected leads"] ∧
    backend w2 = backend w1 ∧
    ∀ l, l ∈ leads w2 → id l ∈ [id l1; id l2; id l3] → status l = newStatus.
Proof.
  intros Hsel H0 H1 H2.
  set (w1 := toast (ToastSuccess "Status updated for selected leads")
               (BulkActions.insert_all (bulk_status_activity newStatus)
                  insert_error 0 [l1; l2; l3]
                  (send (UpdateLeads (SetStatus newStatus)
                           [id l1; id l2; id l3]) None w))).
  assert (Htbl : leads_table (backend w1) =
            ((λ l, if includes [id l1; id l2; id l3] (id l)
                   then with_status newStatus l else l)
               <$> leads_table (backend w))).
  { subst w1. cbn. rewrite H0, H1, H2. reflexivity. }
  assert (Hstat : ∀ l, l ∈ leads_table (backend w1) →
                       id l ∈ [id l1; id l2; id l3] → status l = newStatus).
  { intros l Hl. rewrite Htbl in Hl. by eapply status_after_update. }
  assert (Htoast : toasts w1 =
            toasts w ++ [ToastSuccess "Status updated for selected leads"]).
  { subst w1. reflexivity. }
  exists w1. split.
  { intros onAC. unfold BulkActions.handleStatusChange. cbv zeta.
    cbn [selectedLeads send]. rewrite Hsel. reflexivity. }
  split; [exact Htbl|]. split; [exact Hstat|]. split.
  { subst w1. cbn. rewrite H0, H1, H2. cbn. by rewrite <- app_assoc. }
  split.
  { subst w1. cbn. by rewrite <- !app_assoc. }
  split; [exact Htoast|]. split; [reflexivity|].
  intros w2. subst w2. unfold SalesLeads.onActionComplete.
  destruct (fetchLeads_store u subs w1) as (_ & Hb & Ht & _).
  rewrite toasts_clearSelections, backend_clearSelections,
    leads_clearSelections.
  split; [rewrite Ht; exact Htoast|]. split; [exact Hb|].
  intros l Hl. apply Hstat.
  assert (HF : Forall (λ l, l ∈ leads_table (backend w1))
                 (leads (fetchLeads store_range (Some u) subs w1))).
  { apply Forall_fetchLeads. intros from to d. apply store_range_rows. }
  rewrite Forall_forall in HF. by apply HF.
Qed.

Lemma C8_bulk_status_partial_audit_witness :
  (selectedLeads sample_selection = [sample_own; sample_sub; sample_far] ∧
   second_insert_fails 0 = None ∧
   second_insert_fails 1 = Some "insert failed" ∧
   second_insert_fails 2 = None) ∧
  ∃ w1,
    BulkActions.handleStatusChange
      (SalesLeads.onActionComplete store_range (Some sample_admin) [])
      None second_insert_fails "Won" sample_selection
    = SalesLeads.onActionComplete store_range (Some sample_admin) [] w1 ∧
    status <$> leads_table (backend w1) = ["Won"; "Won"; "Won"] ∧
    lead_activities (backend w1) =
      [bulk_status_activity "Won" sample_own;
       bulk_status_activity "Won" sample_far] ∧
    toasts w1 = [ToastSuccess "Status updated for selected leads"].
Proof.
  split; [exact (conj eq_refl (conj eq_refl (conj eq_refl eq_refl)))|].
  destruct (C8_bulk_status_partial_audit sample_admin [] "Won"
              "insert failed" second_insert_fails sample_own sample_sub
              sample_far sample_selection eq_refl eq_refl eq_refl eq_refl)
    as (w1 & Hrun & Htbl & _ & Hact & _ & Htoast & _).
  exists w1. 
  split; [exact (Hrun _)|]. 
  split; [|split; [exact Hact|exact Htoast]].
  etrans; [exact (f_equal (fmap status) Htbl)|]. 
  vm_compute. reflexivity.
Defined.

(** ** The gate of bulk deletion *)

Section Delete.

Variable onActionComplete : World → World.

(** A viewer who is neither admin nor desk is turned away: an error
    toast is shown and nothing else changes. *)
Lemma delete_rejected (usr : CurrentUser) (confirmed : bool)
    (delete_error : option string) (w : World) :
  role usr ≠ "admin" → role usr ≠ "desk" →
  BulkActions.handleDeleteLeads onActionComplete
    (BulkActions.checkUserRole (Some usr)) confirmed delete_error w
  = toast (ToastError "Only admins can delete leads") w.
Proof.
  intros Ha Hd. apply str_eqb_false in Ha, Hd.
  unfold BulkActions.handleDeleteLeads, BulkActions.checkUserRole.
  by rewrite Ha, Hd.
Qed.

(** Before the role is known, and for a signed-out viewer, the gate is
    closed as well. *)
Lemma delete_rejected_signed_out (confirmed : bool)
    (delete_error : option string) (w : World) :
  BulkActions.handleDeleteLeads onActionComplete
    (BulkActions.checkUserRole None) confirmed delete_error w
  = toast (ToastError "Only admins can delete leads") w.
Proof. reflexivity. Qed.

(** An admin who confirms sends one delete keyed by the identities of
    the selected leads. *)
Lemma delete_by_admin (usr : CurrentUser) (w : World) :
  role usr = "admin" →
  BulkActions.handleDeleteLeads onActionComplete
    (BulkActions.checkUserRole (Some usr)) true None w
  = onActionComplete
      (toast (ToastSuccess "Leads deleted successfully")
         (send (DeleteLeads (id <$> selectedLeads w)) None w)).
Proof.
  intros Hr. unfold BulkActions.handleDeleteLeads, BulkActions.checkUserRole.
  rewrite Hr. reflexivity.
Qed.

End Delete.

(** C1: the gate of bulk deletion also opens for the desk role. For
    every desk viewer who confirms, handleDeleteLeads sends the delete
    for the selected identities, the selected leads leave the table, and
    a success toast is shown, while the message of the gate itself says
    that only admins can delete leads. *)
Theorem C1_desk_viewer_deletes (onActionComplete : World → World)
    (uid : string) (name : option string) (w : World) :
  let usr := {| user_id := uid; full_name := name; role := "desk" |} in
  let w1 := toast (ToastSuccess "Leads deleted successfully")
              (send (DeleteLeads (id <$> selectedLeads w)) None w) in
  role usr ≠ "admin" ∧
  BulkActions.checkUserRole (Some usr) = true ∧
  BulkActions.handleDeleteLeads onActionComplete
    (BulkActions.checkUserRole (Some usr)) true None w
  = onActionComplete w1 ∧
  requests w1 = requests w ++ [DeleteLeads (id <$> selectedLeads w)] ∧
  leads_table (backend w1) =
    List.filter (λ l, negb (includes (id <$> selectedLeads w) (id l)))
      (leads_table (backend w)) ∧
  (∀ l, l ∈ selectedLeads w → l ∉ leads_table (backend w1)).
Proof.
  intros usr w1. split; [done|]. split; [reflexivity|].
  split; [reflexivity|]. split; [reflexivity|]. split; [reflexivity|].
  intros l Hl Hin. subst w1. cbn in Hin.
  apply elem_of_List_filter in Hin as [_ Hn].
  apply negb_true_iff in Hn. unfold includes in Hn.
  apply bool_decide_eq_false in Hn. apply Hn.
  by apply list_elem_of_fmap_2.
Qed.

(** ** The invariant, assembled *)

Lemma sample_batch_distinct : distinct_ids (matching sample_small).
Proof. apply (bool_decide_unpack _). vm_compute. reflexivity. Qed.

(** The pages of a table with distinct identities are well formed. *)
Lemma store_range_page_ok b from to :
  distinct_ids (matching b) → page_ok (store_range b from to).
Proof.
  intros Hd. unfold page_ok, store_range. simpl. split.
  - unfold distinct_ids in *. rewrite fmap_take, fmap_drop.
    rewrite <- (take_drop from (id <$> matching b)) in Hd.
    apply NoDup_app in Hd as (_ & _ & Hd).
    rewrite <- (take_drop (to + 1 - from) (drop from (id <$> matching b)))
      in Hd.
    by apply NoDup_app in Hd as (Hd & _ & _).
  - apply Forall_forall. intros l Hl.
    apply elem_of_take in Hl as (i & Hi & _). rewrite lookup_drop in Hi.
    apply list_elem_of_lookup_2, elem_of_List_filter in Hi as [_ Hi].
    by apply negb_true_iff in Hi.
Qed.

Lemma displayed_ok_except_nil u s ls :
  displayed_ok_except u s [] ls ↔ displayed_ok u s ls.
Proof.
  unfold displayed_ok_except, displayed_ok. split; intros [Hd Hf].
  - split; [done|]. eapply Forall_impl; [exact Hf|].
    intros l [Hc Hv]. split; [done|]. apply Hv. apply not_elem_of_nil.
  - split; [done|]. eapply Forall_impl; [exact Hf|]. by intros l [Hc Hv].
Qed.

Lemma displayed_ok_except_mono u s T T' ls :
  T ⊆ T' → displayed_ok_except u s T ls → displayed_ok_except u s T' ls.
Proof.
  intros Hsub [Hd Hf]. split; [done|]. eapply Forall_impl; [exact Hf|].
  intros l [Hc Hv]. split; [done|]. intros Hn. apply Hv. intros Hin.
  apply Hn. by apply Hsub.
Qed.

Lemma displayed_ok_except_rows u s T ls :
  displayed_ok_except u s T ls → displayed_rows_ok ls.
Proof.
  intros [Hd Hf]. split; [done|]. eapply Forall_impl; [exact Hf|].
  by intros l [Hc _].
Qed.

Lemma displayed_rows_ok_except u s ls :
  displayed_rows_ok ls → displayed_ok_except u s (id <$> ls) ls.
Proof.
  intros [Hd Hf]. split; [done|]. apply Forall_forall. intros l Hl.
  rewrite Forall_forall in Hf. split; [by apply Hf|].
  intros Hn. exfalso. apply Hn. by apply list_elem_of_fmap_2.
Qed.

(** Merging a filtered page keeps what is known of the leads already
    displayed. *)
Lemma displayed_ok_except_appendNew u s T batch prev :
  displayed_ok_except u s T prev → displayed_ok u s batch →
  displayed_ok_except u s T (appendNew batch prev).
Proof.
  intros [Hp1 Hp2] [Hb1 Hb2]. split.
  - by apply distinct_ids_appendNew.
  - apply Forall_appendNew; [done|]. eapply Forall_impl; [exact Hb2|].
    by intros l [Hc Hv].
Qed.

Lemma prefix_appendNew batch prev : prev `prefix_of` appendNew batch prev.
Proof. rewrite appendNew_app. by apply prefix_app_r. Qed.

Section Session.

Variable rq : Backend → nat → nat → Response.
Variable u : CurrentUser.
Variable s : list string.

Lemma loopBody_prefix st :
  leads (world st) `prefix_of` leads (world (loopBody rq u s st).2).
Proof.
  destruct (loopBody_leads rq u s st) as [->|(d & _ & _ & ->)]; [done|].
  apply prefix_appendNew.
Qed.

Lemma displayed_ok_except_loopBody T st :
  page_ok (page_of rq st) →
  displayed_ok_except u s T (leads (world st)) →
  displayed_ok_except u s T (leads (world (loopBody rq u s st).2)).
Proof.
  intros Hp H.
  destruct (loopBody_leads rq u s st) as [->|(d & _ & Hd & ->)]; [done|].
  apply displayed_ok_except_appendNew; [done|].
  rewrite filterBatch_visible. unfold page_ok in Hp. rewrite Hd in Hp.
  destruct Hp as [? ?]. by apply displayed_ok_filter.
Qed.

Lemma shown_step_Pass x :
  shown (step rq u s Pass x) =
  if looping x && guard (vars x)
  then leads (world (loopBody rq u s (vars x)).2) else shown x.
Proof.
  unfold shown. cbn [step]. destruct (looping x && guard (vars x)); [|done].
  by destruct (loopBody rq u s (vars x)) as [[] st'].
Qed.

Lemma displayed_ok_except_status T ue ie leadId newStatus w :
  displayed_ok_except u s T (leads w) →
  displayed_ok_except u s T
    (leads (SalesLeads.handleStatusChange ue ie leadId newStatus w)).
Proof.
  rewrite leads_handleStatusChange. destruct ue as [e|]; [done|].
  intros [Hd Hf]. split.
  - unfold distinct_ids. by rewrite ids_patch_where.
  - by apply Forall_patch_where.
Qed.

Lemma displayed_ok_except_assign T ie leadId agentId w :
  displayed_ok_except u s T (leads w) →
  displayed_ok_except u s (leadId :: T)
    (leads (SalesLeads.handleAssignAgent None ie leadId agentId w)).
Proof.
  rewrite leads_handleAssignAgent. intros [Hd Hf]. split.
  - unfold distinct_ids. by rewrite ids_patch_where.
  - apply Forall_fmap. eapply Forall_impl; [exact Hf|].
    intros l [Hc Hv]. simpl. destruct (str_eqb (id l) leadId) eqn:E.
    + apply str_eqb_true in E. split; [done|]. intros Hn. exfalso.
      apply Hn. simpl. rewrite E. by left.
    + split; [done|]. intros Hn. apply Hv. intros Hin. apply Hn.
      by right.
Qed.

Lemma displayed_ok_except_run ops : ∀ x T,
  pages_ok rq u s ops x →
  displayed_ok_except u s T (shown x) →
  displayed_ok_except u s (reassigned ops ++ T) (shown (run rq u s ops x)).
Proof.
  induction ops as [|o ops IH]; intros x T Hp H; [done|].
  destruct Hp as [Ho Hp].
  change (run rq u s (o :: ops) x) with (run rq u s ops (step rq u s o x)).
  destruct o as [|ue ie leadId newStatus|ue ie leadId agentId].
  - apply (IH _ T Hp). rewrite shown_step_Pass.
    destruct (looping x && guard (vars x)); [|done].
    by apply displayed_ok_except_loopBody; [apply Ho|].
  - apply (IH _ T Hp). by apply displayed_ok_except_status.
  - destruct ue as [e|].
    + apply (IH _ T Hp). unfold shown. cbn [step vars on_world world].
      by rewrite leads_handleAssignAgent.
    + eapply displayed_ok_except_mono;
        [|apply (IH _ (leadId :: T) Hp); by apply displayed_ok_except_assign].
      intros i Hi. change (reassigned (AssignAgent None ie leadId agentId :: ops))
        with (leadId :: reassigned ops).
      rewrite elem_of_app, elem_of_cons in Hi.
      rewrite elem_of_app, elem_of_cons. tauto.
Qed.

Lemma displayed_rows_ok_run ops : ∀ x,
  pages_ok rq u s ops x →
  displayed_rows_ok (shown x) → displayed_rows_ok (shown (run rq u s ops x)).
Proof.
  intros x Hp H.
  apply (displayed_ok_except_rows u s (reassigned ops ++ (id <$> shown x))).
  apply (displayed_ok_except_run ops x _ Hp).
  by apply displayed_rows_ok_except.
Qed.

(** With no handler in between, the passes are the [while] loop. *)
Lemma run_stopped n st :
  run rq u s (replicate n Pass) {| vars := st; looping := false |}
  = {| vars := st; looping := false |}.
Proof. induction n as [|n IH]; [done|]. exact IH. Qed.

Lemma run_passes n : ∀ st,
  vars (run rq u s (replicate n Pass) {| vars := st; looping := true |})
  = while_loop rq u s n st.
Proof.
  induction n as [|n IH]; intros st; [done|].
  rewrite while_loop_S.
  change (run rq u s (replicate (S n) Pass) {| vars := st; looping := true |})
    with (run rq u s (replicate n Pass)
            (step rq u s Pass {| vars := st; looping := true |})).
  cbn [step looping vars andb].
  destruct (guard st); [|by rewrite run_stopped].
  destruct (loopBody rq u s st) as [[] st']; [apply IH|].
  by rewrite run_stopped.
Qed.

End Session.

Lemma displayed_ok_start rq u subs w :
  page_ok (rq (backend w) 0 (batchSize - 1)) →
  displayed_ok u (subordinateIdsFor u subs) (shown (start rq u subs w)).
Proof.
  intros Hp. unfold start, shown. cbn.
  destruct (error (rq (backend w) 0 (batchSize - 1))) as [e|];
    [apply displayed_ok_nil|].
  cbn. rewrite filterFirstBatch_visible. unfold page_ok in Hp.
  destruct (data (rq (backend w) 0 (batchSize - 1))) as [d|]; simpl.
  - destruct Hp as [? ?]. by apply displayed_ok_filter.
  - apply displayed_ok_nil.
Qed.

Lemma reassigned_passes n : reassigned (replicate n Pass) = [].
Proof. induction n as [|n IH]; [done|]. exact IH. Qed.

(** fetchLeads is the session it opens, continued by passes alone and
    closed. *)
Lemma fetchLeads_session rq u subs w :
  fetchLeads rq (Some u) subs w
  = close (looping (start rq u subs w))
      (run rq u (subordinateIdsFor u subs) (replicate maxIterations Pass)
         (start rq u subs w)).
Proof.
  unfold fetchLeads, start, close. cbn.
  destruct (error (rq (backend w) 0 (batchSize - 1))) as [e|].
  - cbn [looping]. by rewrite run_stopped.
  - cbn [looping]. by rewrite run_passes, loadRemaining_finish.
Qed.

Lemma leads_close started x : leads (close started x) = shown x.
Proof. destruct started; [apply leads_finish|done]. Qed.

Lemma displayed_ok_assign_iff u s ie leadId agentId w :
  displayed_ok u s (leads w) →
  displayed_ok u s
    (leads (SalesLeads.handleAssignAgent None ie leadId agentId w)) ↔
  ∀ l, l ∈ leads w → id l = leadId →
       visible u s (with_assigned_to agentId l) = true.
Proof.
  intros [Hd Hf]. rewrite leads_handleAssignAgent. split.
  - intros [_ H] l Hl Hid. rewrite Forall_forall in H.
    apply (list_elem_of_fmap_2
             (λ lead, if str_eqb (id lead) leadId
                      then with_assigned_to agentId lead else lead)) in Hl.
    apply H in Hl. apply str_eqb_true in Hid. rewrite Hid in Hl.
    by destruct Hl.
  - intros H. split.
    + unfold distinct_ids. by rewrite ids_patch_where.
    + apply Forall_fmap. apply Forall_forall. intros l Hl.
      rewrite Forall_forall in Hf. destruct (Hf l Hl) as [Hc Hv]. simpl.
      destruct (str_eqb (id l) leadId) eqn:E; [|done].
      apply str_eqb_true in E. split; [done|]. by apply H.
Qed.

(** C4 (amended). Provided every page the service returns holds only
    unconverted leads and no identity twice:
    - when the first page has been handled, the displayed collection has
      no two leads with the same identity and holds only unconverted
      leads visible to the viewer;
    - after any sequence of background passes, in-place status changes
      and in-place assignment changes, in any order, whether counted
      from the first page or from any later state, it still has no two
      leads with the same identity and holds only unconverted leads, and
      every lead in it whose identity was not the target of an accepted
      in-place assignment change is visible to the viewer; so the whole
      invariant is kept as long as no such change was accepted;
    - with no handler in between the passes are the run of fetchLeads,
      which therefore ends with the whole invariant;
    - an accepted in-place assignment change keeps the whole invariant
      exactly when the displayed lead with the target identity is
      visible to the viewer under its new assignee;
    - a background pass never removes or rewrites a displayed lead. *)
Theorem C4_displayed_invariant (rq : Backend → nat → nat → Response)
    (u : CurrentUser) (subs : list string) :
  let s := subordinateIdsFor u subs in
  (∀ w, page_ok (rq (backend w) 0 (batchSize - 1)) →
        displayed_ok u s (shown (start rq u subs w))) ∧
  (∀ ops x changed,
     pages_ok rq u s ops x →
     displayed_ok_except u s changed (shown x) →
     displayed_ok_except u s (reassigned ops ++ changed)
       (shown (run rq u s ops x))) ∧
  (∀ w ops,
     page_ok (rq (backend w) 0 (batchSize - 1)) →
     pages_ok rq u s ops (start rq u subs w) →
     displayed_ok_except u s (reassigned ops)
       (shown (run rq u s ops (start rq u subs w))) ∧
     (reassigned ops = [] →
      displayed_ok u s (shown (run rq u s ops (start rq u subs w))))) ∧
  (∀ ops x,
     pages_ok rq u s ops x → reassigned ops = [] →
     displayed_ok u s (shown x) →
     displayed_ok u s (shown (run rq u s ops x))) ∧
  (∀ ops x,
     pages_ok rq u s ops x →
     displayed_rows_ok (shown x) →
     displayed_rows_ok (shown (run rq u s ops x))) ∧
  (∀ w, let x := run rq u s (replicate maxIterations Pass)
                    (start rq u subs w) in
        fetchLeads rq (Some u) subs w
        = close (looping (start rq u subs w)) x ∧
        leads (fetchLeads rq (Some u) subs w) = shown x) ∧
  (∀ w, page_ok (rq (backend w) 0 (batchSize - 1)) →
        pages_ok rq u s (replicate maxIterations Pass) (start rq u subs w) →
        displayed_ok u s (leads (fetchLeads rq (Some u) subs w))) ∧
  (∀ ie leadId agentId w,
     displayed_ok u s (leads w) →
     (displayed_ok u s
        (leads (SalesLeads.handleAssignAgent None ie leadId agentId w)) ↔
      ∀ l, l ∈ leads w → id l = leadId →
           visible u s (with_assigned_to agentId l) = true)) ∧
  (∀ st, leads (world st) `prefix_of`
         leads (world (loopBody rq u s st).2)).
Proof.
  intros s.
  split; [intros w; by apply displayed_ok_start|].
  split; [intros ops x changed; by apply displayed_ok_except_run|].
  split.
  { intros w ops H0 Hp.
    assert (Hx : displayed_ok_except u s (reassigned ops)
                   (shown (run rq u s ops (start rq u subs w)))).
    { rewrite <- (app_nil_r (reassigned ops)).
      apply displayed_ok_except_run; [done|].
      apply displayed_ok_except_nil. by apply displayed_ok_start. }
    split; [exact Hx|]. intros Hr. rewrite Hr in Hx.
    by apply displayed_ok_except_nil. }
  split.
  { intros ops x Hp Hr H. apply displayed_ok_except_nil.
    pose proof (displayed_ok_except_run rq u s ops x [] Hp) as Hx.
    rewrite Hr in Hx. apply Hx. by apply displayed_ok_except_nil. }
  split; [intros ops x; by apply displayed_rows_ok_run|].
  split.
  { intros w x. split; [apply fetchLeads_session|].
    by rewrite fetchLeads_session, leads_close. }
  split.
  { intros w H0 Hp. rewrite fetchLeads_session, leads_close.
    apply displayed_ok_except_nil.
    pose proof (displayed_ok_except_run rq u s _ _ [] Hp) as Hx.
    rewrite reassigned_passes in Hx. apply Hx.
    apply displayed_ok_except_nil. by apply displayed_ok_start. }
  split; [intros ie leadId agentId w; by apply displayed_ok_assign_iff|].
  intros st. apply loopBody_prefix.
Qed.

Lemma C4_displayed_invariant_witness :
  (page_ok (short_range (backend (empty_world sample_small)) 0
              (batchSize - 1)) ∧
   pages_ok short_range sample_manager
     (subordinateIdsFor sample_manager ["u2"; "u4"]) sample_ops
     sample_session) ∧
  shown sample_session = [sample_own; sample_sub] ∧
  shown (run short_range sample_manager
           (subordinateIdsFor sample_manager ["u2"; "u4"]) sample_ops
           sample_session)
  = [with_assigned_to None sample_own; with_status "Won" sample_sub;
     sample_far] ∧
  reassigned sample_ops = ["a"] ∧
  displayed_ok_except sample_manager
    (subordinateIdsFor sample_manager ["u2"; "u4"]) (reassigned sample_ops)
    (shown (run short_range sample_manager
              (subordinateIdsFor sample_manager ["u2"; "u4"]) sample_ops
              sample_session)).
Proof.
  set (s := subordinateIdsFor sample_manager ["u2"; "u4"]).
  assert (H0 : page_ok (short_range (backend (empty_world sample_small)) 0
                          (batchSize - 1))).
  { apply store_range_page_ok. exact sample_batch_distinct. }
  assert (H1 : pages_ok short_range sample_manager s sample_ops
                 sample_session).
  { split; [exact I|]. split; [|split; [exact I|exact I]].
    intros _. apply store_range_page_ok.
    apply (bool_decide_unpack _). vm_compute. reflexivity. }
  split; [exact (conj H0 H1)|].
  split; [vm_compute; reflexivity|].
  split; [vm_compute; reflexivity|].
  split; [reflexivity|].
  destruct (C4_displayed_invariant short_range sample_manager ["u2"; "u4"])
    as (_ & _ & Hrun & _).
  exact (proj1 (Hrun (empty_world sample_small) sample_ops H0 H1)).
Defined.

(** * Further properties *)

(** ** The fetcher, for an arbitrary service *)

(** X1: when the first page request fails, the displayed collection is
    empty whatever was displayed before, no background request is sent,
    the failure is logged and shown as an error toast, and the loading
    flag is cleared. *)
Theorem X1_first_page_failure_clears (rq : Backend → nat → nat → Response)
    (u : CurrentUser) (subs : list string) (w : World) (e : string) :
  error (rq (backend w) 0 (batchSize - 1)) = Some e →
  let w' := fetchLeads rq (Some u) subs w in
  leads w' = [] ∧
  loading w' = false ∧
  requests w' = requests w ++ [SelectLeads 0 (batchSize - 1)] ∧
  toasts w' = toasts w ++ [ToastError "Failed to fetch leads"] ∧
  console w' = console w ++ [LogStart; ErrorFetchingLeads e] ∧
  backend w' = backend w.
Proof.
  intros He w'. subst w'. unfold fetchLeads. cbn. rewrite He. cbn.
  rewrite <- app_assoc. done.
Qed.

Lemma X1_first_page_failure_clears_witness :
  error (failing_range (backend sample_shown) 0 (batchSize - 1))
    = Some "timeout" ∧
  leads sample_shown = sample_batch ∧
  leads (fetchLeads failing_range (Some sample_admin) [] sample_shown) = [] ∧
  toasts (fetchLeads failing_range (Some sample_admin) [] sample_shown)
    = [ToastError "Failed to fetch leads"].
Proof.
  split; [reflexivity|]. split; [reflexivity|].
  pose proof (X1_first_page_failure_clears failing_range sample_admin []
                sample_shown "timeout" eq_refl) as H.
  cbv zeta in H. destruct H as (Hl & _ & _ & Ht & _).
  split; [exact Hl | exact Ht].
Defined.

Lemma loopBody_continue_offset rq u s st st' :
  loopBody rq u s st = (Continue, st') →
  hasMore st' = true → offset st' = offset st + batchSize.
Proof.
  unfold loopBody. cbv zeta.
  destruct (rq _ _ _) as [d [e|]]; cbn; [done|].
  destruct d as [[|x d]|]; cbn; intros [= <-]; cbn; done.
Qed.

Lemma seq_0_S n : seq 0 (S n) = seq 0 n ++ [n].
Proof. by rewrite seq_S. Qed.

(** The pages a loop has asked for are consecutive. *)
Lemma while_loop_pages rq u s n st R :
  (hasMore st = true → offset st = S (iterations st) * batchSize) →
  requests (world st) = R ++ (page_request <$> seq 0 (S (iterations st))) →
  iterations st ≤ maxIterations →
  ∃ k, k ≤ maxIterations ∧
       requests (world (while_loop rq u s n st))
       = R ++ (page_request <$> seq 0 (S k)).
Proof.
  revert st. induction n as [|n IH]; intros st Hoff Hreq Hit.
  - exists (iterations st). done.
  - rewrite while_loop_S. destruct (guard st) eqn:Hg; [|by eexists].
    pose proof (guard_iterations _ Hg) as Hlt.
    assert (Hm : hasMore st = true).
    { unfold guard in Hg. by apply andb_true_iff in Hg as [? _]. }
    pose proof (loopBody_iterations rq u s st) as Hi.
    pose proof (loopBody_requests rq u s st) as Hr.
    pose proof (loopBody_continue_offset rq u s st) as Ho.
    destruct (loopBody rq u s st) as [[] st'] eqn:Eb; cbn [fst snd] in *.
    + apply IH.
      * intros Hm'. rewrite (Ho st' eq_refl Hm'), (Hoff Hm), Hi. lia.
      * rewrite Hr, Hreq, Hi, <- app_assoc. f_equal.
        rewrite (seq_0_S (S (iterations st))), fmap_app. f_equal.
        simpl. unfold page_request. by rewrite (Hoff Hm).
      * lia.
    + exists (S (iterations st)). split; [lia|].
      rewrite Hr, Hreq, <- app_assoc. f_equal.
      rewrite (seq_0_S (S (iterations st))), fmap_app. f_equal.
      simpl. unfold page_request. by rewrite (Hoff Hm).
Qed.

(** X2: whatever the service answers, a run asks for consecutive pages
    starting with the first one, never for the same page twice, and for
    at most 101 pages. *)
Theorem X2_pages_consecutive_and_capped (rq : Backend → nat → nat → Response)
    (u : CurrentUser) (subs : list string) (w : World) :
  ∃ k, k ≤ 100 ∧
       requests (fetchLeads rq (Some u) subs w)
       = requests w ++ (page_request <$> seq 0 (S k)) ∧
       page_requests (requests (fetchLeads rq (Some u) subs w))
       = page_requests (requests w) + S k.
Proof.
  assert (H : ∃ k, k ≤ maxIterations ∧
                requests (fetchLeads rq (Some u) subs w)
                = requests w ++ (page_request <$> seq 0 (S k))).
  { unfold fetchLeads. cbn.
    destruct (error (rq (backend w) 0 (batchSize - 1))) as [e|] eqn:E.
    - exists 0. split; [lia|]. done.
    - rewrite loadRemaining_finish, requests_finish.
      apply while_loop_pages; cbn; [intros _; lia|done|lia]. }
  destruct H as (k & Hk & Hr). exists k.
  rewrite maxIterations_val in Hk. split; [done|]. split; [done|].
  by rewrite Hr, page_requests_app, page_requests_pages, length_seq.
Qed.

Lemma same_session_refl w : same_session w w.
Proof. by repeat split. Qed.

Lemma same_session_trans w1 w2 w3 :
  same_session w1 w2 → same_session w2 w3 → same_session w1 w3.
Proof.
  intros (A1 & A2 & A3 & A4) (B1 & B2 & B3 & B4).
  repeat split; congruence.
Qed.

Lemma loopBody_same_session rq u s st :
  same_session (world st) (world (loopBody rq u s st).2).
Proof.
  unfold loopBody. cbv zeta.
  destruct (rq _ _ _) as [d [e|]]; cbn; [by repeat split|].
  destruct d as [[|x d]|]; cbn; try by repeat split.
  case_match; by repeat split.
Qed.

Lemma while_loop_same_session rq u s n st :
  same_session (world st) (world (while_loop rq u s n st)).
Proof.
  revert st. induction n as [|n IH]; intros st;
    [apply same_session_refl|].
  rewrite while_loop_S. destruct (guard st); [|apply same_session_refl].
  pose proof (loopBody_same_session rq u s st) as Hb.
  destruct (loopBody rq u s st) as [[] st']; cbn [fst snd] in *; [|done].
  eapply same_session_trans; [exact Hb | apply IH].
Qed.

Lemma finish_same_session st : same_session (world st) (finish st).
Proof.
  unfold finish. destruct (maxIterations <=? iterations st);
    by repeat split.
Qed.

Lemma loading_finish st : loading (finish st) = false.
Proof. reflexivity. Qed.

Lemma fetchLeads_frame rq u subs w :
  loading (fetchLeads rq (Some u) subs w) = false ∧
  same_session w (fetchLeads rq (Some u) subs w).
Proof.
  unfold fetchLeads. cbn.
  destruct (error (rq (backend w) 0 (batchSize - 1))) as [e|] eqn:E.
  - split; [done|]. by repeat split.
  - rewrite loadRemaining_finish. split; [apply loading_finish|].
    eapply same_session_trans; [|apply finish_same_session].
    eapply same_session_trans; [|apply while_loop_same_session].
    by repeat split.
Qed.

(** X3: whatever the service answers, a run for a signed-in viewer ends
    with the loading flag cleared and leaves the tables, the selection
    and the refresh trigger as they were. *)
Theorem X3_fetch_frame (rq : Backend → nat → nat → Response)
    (u : CurrentUser) (subs : list string) (w : World) :
  loading (fetchLeads rq (Some u) subs w) = false ∧
  same_session w (fetchLeads rq (Some u) subs w).
Proof. apply fetchLeads_frame. Qed.

Lemma loopBody_same_view rq u s st1 st2 :
  same_view st1 st2 →
  (loopBody rq u s st1).1 = (loopBody rq u s st2).1 ∧
  same_view (loopBody rq u s st1).2 (loopBody rq u s st2).2.
Proof.
  intros (Ho & Hm & Hi & Hb & Hl).
  unfold loopBody. cbv zeta.
  change (backend (console_put ?c (world st1))) with (backend (world st1)).
  change (backend (console_put ?c (world st2))) with (backend (world st2)).
  rewrite Ho, Hm, Hi, Hb.
  destruct (rq _ _ _) as [d [e|]]; cbn [data error].
  - split; [done|]. by repeat split.
  - destruct d as [[|x d]|]; try (split; [done|]; by repeat split).
    destruct (0 <? length (filterBatch u s (x :: d)));
      destruct (length (x :: d) <? batchSize);
      (split; [done|]); repeat split; try done; cbn; by rewrite Hl.
Qed.

Lemma while_loop_same_view rq u s n st1 st2 :
  same_view st1 st2 →
  same_view (while_loop rq u s n st1) (while_loop rq u s n st2).
Proof.
  revert st1 st2. induction n as [|n IH]; intros st1 st2 Hv; [done|].
  rewrite !while_loop_S.
  assert (Hg : guard st1 = guard st2).
  { destruct Hv as (_ & Hm & Hi & _). unfold guard. by rewrite Hm, Hi. }
  rewrite <- Hg. destruct (guard st1); [|done].
  destruct (loopBody_same_view rq u s st1 st2 Hv) as [Hf Hv'].
  destruct (loopBody rq u s st1) as [f1 st1'],
           (loopBody rq u s st2) as [f2 st2']. cbn [fst snd] in *. subst f2.
  destruct f1; [by apply IH | done].
Qed.

(** X4: what a run displays depends on the tables and the viewer only,
    not on what was displayed before: a fetch starts from an empty
    collection, so fetching again over unchanged tables displays the
    same leads. *)
Theorem X4_fetch_forgets_previous_view (rq : Backend → nat → nat → Response)
    (u : CurrentUser) (subs : list string) (w1 w2 : World) :
  backend w1 = backend w2 →
  leads (fetchLeads rq (Some u) subs w1)
  = leads (fetchLeads rq (Some u) subs w2) ∧
  leads (fetchLeads rq (Some u) subs (fetchLeads rq (Some u) subs w1))
  = leads (fetchLeads rq (Some u) subs w1).
Proof.
  assert (H : ∀ wa wb, backend wa = backend wb →
                leads (fetchLeads rq (Some u) subs wa)
                = leads (fetchLeads rq (Some u) subs wb)).
  { intros wa wb Hb. unfold fetchLeads. cbn. rewrite Hb.
    destruct (error (rq (backend wb) 0 (batchSize - 1))) as [e|] eqn:E;
      [done|].
    rewrite !loadRemaining_finish, !leads_finish.
    apply while_loop_same_view. by repeat split. }
  intros Hb. split; [by apply H|]. apply H.
  by destruct (X3_fetch_frame rq u subs w1) as (_ & ? & _).
Qed.

Lemma X4_fetch_forgets_previous_view_witness :
  backend sample_shown = backend (empty_world sample_small) ∧
  leads (fetchLeads store_range (Some sample_agent) [] sample_shown)
  = leads (fetchLeads store_range (Some sample_agent) []
             (empty_world sample_small)).
Proof.
  split; [reflexivity|].
  apply (X4_fetch_forgets_previous_view store_range sample_agent []
           sample_shown (empty_world sample_small) eq_refl).
Defined.

Lemma Forall_visible_while rq u s n st :
  Forall (λ l, visible u s l = true) (leads (world st)) →
  Forall (λ l, visible u s l = true)
    (leads (world (while_loop rq u s n st))).
Proof.
  revert st. induction n as [|n IH]; intros st H; [done|].
  rewrite while_loop_S. destruct (guard st); [|done].
  assert (Hb : Forall (λ l, visible u s l = true)
                 (leads (world (loopBody rq u s st).2))).
  { destruct (loopBody_leads rq u s st) as [->|(d & _ & _ & ->)]; [done|].
    apply Forall_appendNew; [done|]. rewrite filterBatch_visible.
    apply Forall_forall. by intros l [_ Hv]%elem_of_List_filter. }
  destruct (loopBody rq u s st) as [[] st']; cbn [fst snd] in *; [|done].
  by apply IH.
Qed.

(** X5: whatever the service returns, also converted or repeated rows,
    every lead a run displays passes the visibility predicate of the
    viewer. *)
Theorem X5_displayed_leads_are_visible (rq : Backend → nat → nat → Response)
    (u : CurrentUser) (subs : list string) (w : World) :
  Forall (λ l, visible u (subordinateIdsFor u subs) l = true)
    (leads (fetchLeads rq (Some u) subs w)).
Proof.
  unfold fetchLeads. cbn.
  destruct (error (rq (backend w) 0 (batchSize - 1))) as [e|] eqn:E.
  - cbn. apply Forall_nil_2.
  - rewrite loadRemaining_finish, leads_finish.
    apply Forall_visible_while. cbn. rewrite filterFirstBatch_visible.
    apply Forall_forall. by intros l [_ Hv]%elem_of_List_filter.
Qed.

(** ** The fetcher, against a service that answers from its table *)

Lemma background_passes_covers n :
  n ≤ (maxIterations + 1) * batchSize →
  n ≤ S (background_passes n) * batchSize.
Proof.
  intros Hn. pose proof batchSize_pos as Hbs.
  pose proof (Nat.div_mod_eq n batchSize) as Hdm.
  pose proof (Nat.mod_upper_bound n batchSize ltac:(lia)) as Hr.
  unfold background_passes.
  set (q := n / batchSize) in *. set (r := n `mod` batchSize) in *.
  destruct (decide (maxIterations ≤ q)) as [Hq|Hq].
  - replace (Nat.min maxIterations (Nat.max 1 q)) with maxIterations by lia.
    lia.
  - replace (Nat.min maxIterations (Nat.max 1 q)) with (Nat.max 1 q) by lia.
    assert (S q * batchSize ≤ S (Nat.max 1 q) * batchSize).
    { apply Nat.mul_le_mono_r. lia. }
    lia.
Qed.

Lemma background_passes_cap n :
  maxIterations * batchSize ≤ n → background_passes n = maxIterations.
Proof.
  intros Hn. pose proof batchSize_pos as Hbs. pose proof maxIterations_pos.
  unfold background_passes.
  assert (maxIterations ≤ n / batchSize).
  { apply Nat.div_le_lower_bound; [lia|]. by rewrite Nat.mul_comm. }
  generalize dependent (n / batchSize). intros q Hq. lia.
Qed.

Lemma background_passes_below n :
  n < maxIterations * batchSize → background_passes n < maxIterations.
Proof.
  intros Hn. pose proof batchSize_pos as Hbs.
  unfold background_passes.
  assert (n / batchSize < maxIterations).
  { apply Nat.Div0.div_lt_upper_bound. by rewrite Nat.mul_comm. }
  assert (1 < maxIterations) by (rewrite maxIterations_val; lia).
  generalize dependent (n / batchSize). intros q Hq. lia.
Qed.

Lemma fetchLeads_store_complete u subs w :
  distinct_ids (matching (backend w)) →
  length (matching (backend w)) ≤ (maxIterations + 1) * batchSize →
  leads (fetchLeads store_range (Some u) subs w)
  = List.filter (visible u (subordinateIdsFor u subs)) (matching (backend w)).
Proof.
  intros Hd Hn.
  destruct (fetchLeads_store u subs w) as (_ & _ & _ & Hl).
  rewrite (Hl Hd), take_ge; [done|]. by apply background_passes_covers.
Qed.

(** X6: against a table with distinct identities and at most 101000
    matching rows, a run ends displaying exactly the matching leads that
    are visible to the viewer, each once, in the order served. *)
Theorem X6_complete_view (u : CurrentUser) (subs : list string) (w : World) :
  distinct_ids (matching (backend w)) →
  length (matching (backend w)) ≤ (maxIterations + 1) * batchSize →
  leads (fetchLeads store_range (Some u) subs w)
  = List.filter (visible u (subordinateIdsFor u subs)) (matching (backend w)).
Proof. apply fetchLeads_store_complete. Qed.

Lemma X6_complete_view_witness :
  (distinct_ids (matching (backend (empty_world sample_small))) ∧
   length (matching (backend (empty_world sample_small)))
     ≤ (maxIterations + 1) * batchSize) ∧
  leads (fetchLeads store_range (Some sample_manager) ["u2"; "u3"]
           (empty_world sample_small))
  = [sample_own; sample_sub].
Proof.
  assert (H1 : distinct_ids (matching (backend (empty_world sample_small))))
    by exact sample_batch_distinct.
  assert (H2 : length (matching (backend (empty_world sample_small)))
               ≤ (maxIterations + 1) * batchSize).
  { change (length (matching (backend (empty_world sample_small)))) with 3.
    rewrite maxIterations_val, batchSize_val. lia. }
  split; [exact (conj H1 H2)|].
  etrans; [exact (X6_complete_view sample_manager ["u2"; "u3"]
                    (empty_world sample_small) H1 H2)|].
  vm_compute. reflexivity.
Defined.

Lemma console_loopBody_no_warn rq u s st :
  WarnMaxIterations ∉ console (world st) →
  WarnMaxIterations ∉ console (world (loopBody rq u s st).2).
Proof.
  intros H. unfold loopBody. cbv zeta.
  destruct (rq _ _ _) as [d [e|]]; cbn [data error].
  - cbn. rewrite !elem_of_app, !list_elem_of_singleton. intuition discriminate.
  - destruct d as [[|x d]|]; cbn [snd world].
    + cbn. rewrite !elem_of_app, !list_elem_of_singleton. intuition discriminate.
    + destruct (0 <? length (filterBatch u s (x :: d))); cbn;
        rewrite !elem_of_app, !list_elem_of_singleton; intuition discriminate.
    + cbn. rewrite !elem_of_app, !list_elem_of_singleton. intuition discriminate.
Qed.

Lemma console_while_no_warn rq u s n st :
  WarnMaxIterations ∉ console (world st) →
  WarnMaxIterations ∉ console (world (while_loop rq u s n st)).
Proof.
  revert st. induction n as [|n IH]; intros st H; [done|].
  rewrite while_loop_S. destruct (guard st); [|done].
  pose proof (console_loopBody_no_warn rq u s st H) as Hb.
  destruct (loopBody rq u s st) as [[] st']; cbn [fst snd] in *; [|done].
  by apply IH.
Qed.

Lemma console_finish st :
  console (finish st) =
  console (world st)
    ++ (if maxIterations <=? iterations st then [WarnMaxIterations] else [])
    ++ [LogFinished (iterations st) (offset st)].
Proof.
  unfold finish. destruct (maxIterations <=? iterations st); cbn.
  - by rewrite <- app_assoc.
  - done.
Qed.

(** The value of [iterations] at the end of a run over a table. *)
Lemma fetchLeads_store_final u subs w :
  ∃ st, fetchLeads store_range (Some u) subs w = finish st ∧
        iterations st = background_passes (length (matching (backend w))) ∧
        (WarnMaxIterations ∉ console w →
         WarnMaxIterations ∉ console (world st)).
Proof.
  unfold fetchLeads. cbv zeta. rewrite store_range_first.
  cbn [error data default]. rewrite loadRemaining_finish.
  match goal with |- context [while_loop _ _ _ _ ?st] =>
    set (st0 := st) end.
  exists (while_loop store_range u (subordinateIdsFor u subs)
            maxIterations st0).
  split; [done|].
  destruct (while_loop_store u (subordinateIdsFor u subs) maxIterations st0)
    as (H1 & _); [done | simpl; lia | simpl; lia | simpl; lia |].
  split; [exact H1|].
  intros Hw. apply console_while_no_warn. subst st0. cbn.
  rewrite !elem_of_app, !list_elem_of_singleton. intuition discriminate.
Qed.

(** X7: over a table with at least 100000 matching rows a run stops at
    the cap: it sends 101 page requests, logs the maximum-iterations
    warning, and displays only visible leads among the first 101000
    rows. The warning is logged also when nothing was cut off (100000 to
    101000 rows); below 100000 rows the run logs no such warning. *)
Theorem X7_cap_and_warning (u : CurrentUser) (subs : list string) (w : World) :
  let M := matching (backend w) in
  let w' := fetchLeads store_range (Some u) subs w in
  (maxIterations * batchSize ≤ length M →
   WarnMaxIterations ∈ console w' ∧
   page_requests (requests w') = page_requests (requests w) + 101 ∧
   (distinct_ids M →
    leads w' = List.filter (visible u (subordinateIdsFor u subs))
                 (take ((maxIterations + 1) * batchSize) M))) ∧
  (length M < maxIterations * batchSize →
   WarnMaxIterations ∉ console w → WarnMaxIterations ∉ console w').
Proof.
  intros M w'.
  destruct (fetchLeads_store_final u subs w) as (st & Hf & Hi & Hc).
  destruct (fetchLeads_store u subs w) as (Hr & _ & _ & Hl).
  fold M in Hi, Hr, Hl. fold w' in Hf, Hr, Hl. split.
  - intros Hn. pose proof (background_passes_cap _ Hn) as Hbp.
    split; [|split].
    + rewrite Hf, console_finish, Hi, Hbp, Nat.leb_refl.
      rewrite !elem_of_app, list_elem_of_singleton. intuition discriminate.
    + rewrite Hr, Hbp, page_requests_app, page_requests_pages, length_seq.
      by rewrite ?maxIterations_val.
    + intros Hd. rewrite (Hl Hd), Hbp. repeat f_equal; lia.
  - intros Hn Hw. pose proof (background_passes_below _ Hn) as Hbp.
    rewrite Hf, console_finish, Hi.
    destruct (maxIterations <=? background_passes (length M)) eqn:E.
    { apply Nat.leb_le in E. lia. }
    rewrite !elem_of_app, list_elem_of_singleton.
    intros [?|[[]%elem_of_nil|?]]; [by apply Hc|done].
Qed.

Lemma X7_cap_and_warning_witness :
  maxIterations * batchSize
    ≤ length (matching (backend (empty_world sample_large))) ∧
  WarnMaxIterations
    ∈ console (fetchLeads store_range (Some sample_admin) []
                 (empty_world sample_large)) ∧
  page_requests (requests (fetchLeads store_range (Some sample_admin) []
                             (empty_world sample_large))) = 101.
Proof.
  assert (H : maxIterations * batchSize
              ≤ length (matching (backend (empty_world sample_large)))).
  { unfold sample_large, empty_world, backend.
    by rewrite sample_table_matching, sample_table_length. }
  split; [exact H|].
  pose proof (X7_cap_and_warning sample_admin [] (empty_world sample_large))
    as Hx.
  cbv zeta in Hx. destruct Hx as [Hx _]. destruct (Hx H) as (Hw & Hp & _).
  split; [exact Hw | exact Hp].
Defined.

(** ** In-place updates and the next refetch *)

Lemma includes_singleton x y : includes [x] y = str_eqb y x.
Proof.
  unfold includes, str_eqb. apply bool_decide_ext.
  by rewrite list_elem_of_singleton.
Qed.

Lemma List_filter_fmap {A} (p : A → bool) (f : A → A) (l : list A) :
  (∀ x, p (f x) = p x) →
  List.filter p (f <$> l) = f <$> List.filter p l.
Proof.
  intros Hp. induction l as [|x l IH]; [done|].
  change (List.filter p (f <$> x :: l))
    with (if p (f x) then f x :: List.filter p (f <$> l)
          else List.filter p (f <$> l)).
  change (List.filter p (x :: l))
    with (if p x then x :: List.filter p l else List.filter p l).
  rewrite Hp, IH. by destruct (p x).
Qed.

Lemma matching_status_update ie leadId newStatus w :
  matching (backend (SalesLeads.handleStatusChange None ie leadId newStatus w))
  = (λ lead, if str_eqb (id lead) leadId
             then with_status newStatus lead else lead)
      <$> matching (backend w).
Proof.
  unfold SalesLeads.handleStatusChange, matching. cbn.
  assert (Ht : ∀ b, leads_table
                      (match ie with
                       | Some _ => b
                       | None =>
                           exec (InsertActivity
                                   {| lead_id := leadId;
                                      type := "status_change";
                                      description :=
                                        "Status changed to " +:+ newStatus |})
                             b
                       end) = leads_table b).
  { intros b. by destruct ie. }
  rewrite Ht. cbn.
  erewrite list_fmap_ext; [apply List_filter_fmap|].
  - intros l. by destruct (str_eqb (id l) leadId).
  - intros i l _. simpl. by rewrite includes_singleton.
Qed.

(** X8: an in-place status update shows what the next refetch will
    show. If the displayed collection is the result of a run over a
    table with distinct identities, then after a successful single-lead
    status change a new run over the updated table displays exactly the
    collection the handler has already put on screen. *)
Theorem X8_status_update_agrees_with_refetch (u : CurrentUser)
    (subs : list string) (ie : option string) (leadId newStatus : string)
    (w : World) :
  distinct_ids (matching (backend w)) →
  leads w = leads (fetchLeads store_range (Some u) subs w) →
  leads (fetchLeads store_range (Some u) subs
           (SalesLeads.handleStatusChange None ie leadId newStatus w))
  = leads (SalesLeads.handleStatusChange None ie leadId newStatus w).
Proof.
  intros Hd Hsync.
  set (patch := λ lead : Lead, if str_eqb (id lead) leadId
                               then with_status newStatus lead else lead).
  set (w2 := SalesLeads.handleStatusChange None ie leadId newStatus w).
  assert (HM : matching (backend w2) = patch <$> matching (backend w))
    by apply matching_status_update.
  assert (Hd2 : distinct_ids (matching (backend w2))).
  { unfold distinct_ids. rewrite HM. unfold patch.
    by rewrite ids_patch_where. }
  destruct (fetchLeads_store u subs w) as (_ & _ & _ & Hl).
  destruct (fetchLeads_store u subs w2) as (_ & _ & _ & Hl2).
  rewrite (Hl2 Hd2), HM, length_fmap, <- fmap_take.
  rewrite List_filter_fmap.
  - rewrite <- (Hl Hd), <- Hsync. subst w2.
    by rewrite leads_handleStatusChange.
  - intros l. unfold patch. by destruct (str_eqb (id l) leadId).
Qed.

Lemma X8_status_update_agrees_with_refetch_witness :
  (distinct_ids (matching (backend sample_shown)) ∧
   leads sample_shown
   = leads (fetchLeads store_range (Some sample_admin) [] sample_shown)) ∧
  leads (fetchLeads store_range (Some sample_admin) []
           (SalesLeads.handleStatusChange None None "b" "Won" sample_shown))
  = leads (SalesLeads.handleStatusChange None None "b" "Won" sample_shown).
Proof.
  assert (H1 : distinct_ids (matching (backend sample_shown)))
    by exact sample_batch_distinct.
  assert (H2 : leads sample_shown
               = leads (fetchLeads store_range (Some sample_admin) []
                          sample_shown)) by (vm_compute; reflexivity).
  split; [exact (conj H1 H2)|].
  exact (X8_status_update_agrees_with_refetch sample_admin [] None "b" "Won"
           sample_shown H1 H2).
Defined.

(** ** More on the merge *)

(** X9: a merge loses no identity and invents none: the identities
    displayed after merging a page are those displayed before together
    with those of the page. *)
Theorem X9_merge_identities (batch prev : list Lead) (i : string) :
  i ∈ id <$> appendNew batch prev ↔ i ∈ id <$> prev ∨ i ∈ id <$> batch.
Proof.
  rewrite appendNew_app, fmap_app, elem_of_app. split.
  - intros [H|H]; [by left|]. right.
    apply list_elem_of_fmap in H as (l & -> & [Hl _]%elem_of_List_filter).
    by apply list_elem_of_fmap_2.
  - intros [H|H]; [by left|].
    apply list_elem_of_fmap in H as (l & -> & Hl).
    destruct (fresh_in prev l) eqn:E.
    + right. apply list_elem_of_fmap_2. by apply elem_of_List_filter.
    + left. by apply fresh_in_false.
Qed.

(** X10: the merge removes duplicates against the displayed collection
    only, not inside the page: the merged collection has distinct
    identities exactly when the displayed collection had and the new
    leads of the page have distinct identities among themselves. *)
Theorem X10_merge_distinct_iff (batch prev : list Lead) :
  distinct_ids (appendNew batch prev) ↔
  distinct_ids prev ∧ distinct_ids (List.filter (fresh_in prev) batch).
Proof.
  unfold distinct_ids. rewrite appendNew_app, fmap_app, NoDup_app. split.
  - intros (H1 & _ & H3). done.
  - intros (H1 & H3). split; [done|]. split; [|done].
    intros i Hi (l & -> & Hl)%list_elem_of_fmap.
    apply elem_of_List_filter in Hl as [_ Hf]. by apply fresh_in_true in Hf.
Qed.

(** ** More on the visibility filter *)

(** X11: for a viewer with role admin every lead is visible and both
    copies of the filter return the batch as it is. *)
Theorem X11_admin_sees_everything (u : CurrentUser) (s : list string)
    (batch : list Lead) (l : Lead) :
  role u = "admin" →
  visible u s l = true ∧
  filterFirstBatch u s batch = batch ∧ filterBatch u s batch = batch.
Proof.
  intros Hr. unfold visible, filterFirstBatch, filterBatch. by rewrite Hr.
Qed.

Lemma X11_admin_sees_everything_witness :
  role sample_admin = "admin" ∧
  visible sample_admin [] sample_far = true ∧
  filterFirstBatch sample_admin [] sample_batch = sample_batch ∧
  filterBatch sample_admin [] sample_batch = sample_batch.
Proof.
  split; [reflexivity|].
  apply (X11_admin_sees_everything sample_admin [] sample_batch sample_far).
  reflexivity.
Defined.

(** X12: for a viewer with role desk a lead passes the filter exactly
    when its desk equals the viewer's name, or it is assigned to the
    viewer, or its assignee is a non-empty member of the subordinate
    set. *)
Theorem X12_desk_visibility (u : CurrentUser) (s : list string)
    (batch : list Lead) (l : Lead) :
  role u = "desk" →
  let accepted :=
    desk l = full_name u ∨ assigned_to l = Some (user_id u) ∨
    ∃ a, assigned_to l = Some a ∧ a ≠ "" ∧ a ∈ s in
  (visible u s l = true ↔ accepted) ∧
  (l ∈ filterFirstBatch u s batch ↔ l ∈ batch ∧ accepted) ∧
  (l ∈ filterBatch u s batch ↔ l ∈ batch ∧ accepted).
Proof.
  intros Hr accepted.
  assert (Hv : visible u s l = true ↔ accepted).
  { unfold visible, accepted. rewrite Hr. simpl. unfold desk_pred.
    rewrite !orb_true_iff, !nullable_eqb_true, assigned_in_true. tauto. }
  split; [exact Hv|].
  rewrite filterFirstBatch_visible, filterBatch_visible,
    elem_of_List_filter, Hv. done.
Qed.

Lemma X12_desk_visibility_witness :
  role sample_desk = "desk" ∧
  (sample_far ∈ filterBatch sample_desk [] sample_batch ↔
   sample_far ∈ sample_batch ∧
   (desk sample_far = full_name sample_desk ∨
    assigned_to sample_far = Some (user_id sample_desk) ∨
    ∃ a, assigned_to sample_far = Some a ∧ a ≠ "" ∧ a ∈ [])).
Proof.
  split; [reflexivity|].
  apply (X12_desk_visibility sample_desk [] sample_batch sample_far).
  reflexivity.
Defined.

Lemma assigned_in_mono s s' l :
  s ⊆ s' → assigned_in s l = true → assigned_in s' l = true.
Proof.
  intros Hs. rewrite !assigned_in_true.
  intros (a & Ha & Hne & Hin). exists a. split; [done|]. split; [done|].
  by apply Hs.
Qed.

(** X13: visibility grows along the hierarchy. With the same identity
    and subordinate set, what an agent sees a manager sees, and what a
    manager sees a desk viewer sees; and for any viewer a larger
    subordinate set never hides a lead. *)
Theorem X13_visibility_monotone (ua um ud u : CurrentUser)
    (s s' : list string) (l : Lead) :
  role ua = "agent" → role um = "manager" → role ud = "desk" →
  user_id ua = user_id um → user_id um = user_id ud →
  (visible ua s l = true → visible um s l = true) ∧
  (visible um s l = true → visible ud s l = true) ∧
  (s ⊆ s' → visible u s l = true → visible u s' l = true).
Proof.
  intros Ha Hm Hd Hi1 Hi2. unfold visible. rewrite Ha, Hm, Hd. simpl.
  unfold agent_pred, manager_pred, desk_pred. rewrite Hi1, Hi2.
  split; [|split].
  - intros ->. done.
  - intros H. apply orb_true_iff in H as [->| ->];
      by rewrite ?orb_true_r.
  - intros Hs.
    destruct (str_eqb (role u) "admin"); [done|].
    destruct (str_eqb (role u) "desk").
    { intros H. apply orb_true_iff in H as [->|H]; [done|].
      rewrite (assigned_in_mono _ _ _ Hs H). by rewrite orb_true_r. }
    destruct (str_eqb (role u) "manager").
    { intros H. apply orb_true_iff in H as [->|H]; [done|].
      rewrite (assigned_in_mono _ _ _ Hs H). by rewrite orb_true_r. }
    done.
Qed.

Lemma X13_visibility_monotone_witness :
  (role sample_agent = "agent" ∧ role sample_manager = "manager" ∧
   role sample_desk = "desk") ∧
  (visible sample_agent ["u2"] sample_own = true →
   visible sample_manager ["u2"] sample_own = true).
Proof.
  split; [by repeat split|].
  apply (X13_visibility_monotone sample_agent sample_manager
           {| user_id := "u1"; full_name := Some "Desk A"; role := "desk" |}
           sample_guest ["u2"] ["u2"] sample_own); reflexivity.
Defined.

(** X14: filtering works lead by lead, so pages can be filtered
    separately: the first-page filter applied to two pages put together
    gives the first page filtered by the first copy of the chain
    followed by the second page filtered by the second copy, and it
    never reorders or adds leads. *)
Theorem X14_filter_pagewise (u : CurrentUser) (s : list string)
    (page1 page2 : list Lead) :
  filterFirstBatch u s (page1 ++ page2)
  = filterFirstBatch u s page1 ++ filterBatch u s page2 ∧
  filterBatch u s page1 `sublist_of` page1 ∧
  length (filterBatch u s page1) ≤ length page1.
Proof.
  rewrite ?filterFirstBatch_visible, ?filterBatch_visible.
  split; [apply List.filter_app|].
  assert (Hs : ∀ l : list Lead, List.filter (visible u s) l `sublist_of` l).
  { induction l as [|x l IH]; simpl; [done|].
    destruct (visible u s x); by constructor. }
  split; [apply Hs|]. apply sublist_length, Hs.
Qed.

(** X15: asking the hierarchy service only for desk and manager viewers
    loses nothing: for every role the filter gives the same result with
    the subordinate list the page uses as with the full answer of the
    service. *)
Theorem X15_hierarchy_query_only_when_needed (u : CurrentUser)
    (subs : list string) (batch : list Lead) :
  filterBatch u (subordinateIdsFor u subs) batch = filterBatch u subs batch ∧
  filterFirstBatch u (subordinateIdsFor u subs) batch
  = filterFirstBatch u subs batch.
Proof.
  assert (H : filterBatch u (subordinateIdsFor u subs) batch
              = filterBatch u subs batch).
  { unfold subordinateIdsFor, includes.
    destruct (bool_decide (role u ∈ ["desk"; "manager"])) eqn:E; [done|].
    apply bool_decide_eq_false in E. unfold filterBatch.
    destruct (str_eqb (role u) "admin"); [done|].
    destruct (str_eqb (role u) "desk") eqn:Ed.
    { apply str_eqb_true in Ed. exfalso. apply E. rewrite Ed. by left. }
    destruct (str_eqb (role u) "manager") eqn:Em.
    { apply str_eqb_true in Em. exfalso. apply E. rewrite Em.
      right. by left. }
    done. }
  split; [exact H|]. by rewrite !filterFirstBatch_filterBatch.
Qed.

(** ** More on the bulk actions *)

Lemma insert_all_activities mk ie i sel w :
  lead_activities (backend (BulkActions.insert_all mk ie i sel w))
  = lead_activities (backend w) ++ recorded mk ie i sel.
Proof.
  revert i w. induction sel as [|l sel IH]; intros i w; simpl.
  - by rewrite app_nil_r.
  - rewrite IH. destruct (ie i); cbn; [done|]. by rewrite <- app_assoc.
Qed.

Lemma recorded_indexed mk ie i sel :
  recorded mk ie i sel
  = mk <$> (snd <$> List.filter (λ kl, bool_decide (ie kl.1 = None))
                      (zip (seq i (length sel)) sel)).
Proof.
  revert i. induction sel as [|l sel IH]; intros i; [done|].
  cbn [recorded length seq zip zip_with List.filter fst].
  rewrite IH. by destruct (ie i).
Qed.

(** What both bulk handlers do between an accepted update and the
    completion callback. *)
Lemma fanout_then_toast mk ie p msg w :
  let sel := selectedLeads w in
  let w0 := send (UpdateLeads p (id <$> sel)) None w in
  let w1 := toast (ToastSuccess msg)
              (BulkActions.insert_all mk ie 0 (selectedLeads w0) w0) in
  requests w1
  = requests w ++ UpdateLeads p (id <$> sel)
                  :: ((λ l, InsertActivity (mk l)) <$> sel) ∧
  lead_activities (backend w1)
  = lead_activities (backend w) ++ recorded mk ie 0 sel ∧
  leads_table (backend w1)
  = (λ l, if includes (id <$> sel) (id l) then apply_patch p l else l)
      <$> leads_table (backend w) ∧
  console w1 = console w ∧
  toasts w1 = toasts w ++ [ToastSuccess msg] ∧
  leads w1 = leads w ∧ selectedLeads w1 = sel.
Proof.
  intros sel w0 w1.
  destruct (insert_all_frame mk ie 0 (selectedLeads w0) w0)
    as (Hl & Ht & Hc & Hs & Hb).
  split; [|split; [|split; [|split; [|split; [|split]]]]].
  - subst w1. cbn [requests toast].
    rewrite insert_all_requests. subst w0. cbn [requests selectedLeads send].
    by rewrite <- app_assoc.
  - subst w1. cbn [backend toast]. by rewrite insert_all_activities.
  - subst w1. cbn [backend toast]. by rewrite Hb.
  - subst w1. cbn [console toast]. by rewrite Hc.
  - subst w1. cbn [toasts toast]. by rewrite Ht.
  - subst w1. cbn [leads toast]. by rewrite Hl.
  - subst w1. cbn [selectedLeads toast]. by rewrite Hs.
Qed.

(** X16: a bulk status change and a bulk assignment whose update is
    accepted send, after the update, one audit insert per selected lead,
    in the order of the selection, whatever the inserts answer. The
    audit table gains the records of exactly those selected leads whose
    insert succeeded, all of them when none fails; a failed insert
    leaves no trace in the console or the toasts and does not undo the
    update. The success toast is shown and the completion callback is
    then called, once, on the resulting world. *)
Theorem X16_audit_fanout (insert_error : nat → option string)
    (newStatus : string) (agentId : option string) (w : World) :
  let sel := selectedLeads w in
  let succeeded :=
    snd <$> List.filter (λ kl, bool_decide (insert_error kl.1 = None))
              (zip (seq 0 (length sel)) sel) in
  let fanned_out (p : Patch) (mk : Lead → Activity) (msg : string)
      (w1 : World) :=
    requests w1
    = requests w ++ UpdateLeads p (id <$> sel)
                    :: ((λ l, InsertActivity (mk l)) <$> sel) ∧
    lead_activities (backend w1)
    = lead_activities (backend w) ++ (mk <$> succeeded) ∧
    leads_table (backend w1)
    = (λ l, if includes (id <$> sel) (id l) then apply_patch p l else l)
        <$> leads_table (backend w) ∧
    console w1 = console w ∧
    toasts w1 = toasts w ++ [ToastSuccess msg] ∧
    leads w1 = leads w ∧ selectedLeads w1 = sel in
  (∃ w1,
     (∀ onActionComplete,
        BulkActions.handleStatusChange onActionComplete None insert_error
          newStatus w = onActionComplete w1) ∧
     fanned_out (SetStatus newStatus) (bulk_status_activity newStatus)
       "Status updated for selected leads" w1) ∧
  (∃ w2,
     (∀ onActionComplete,
        BulkActions.handleAssignAgent onActionComplete None insert_error
          agentId w = onActionComplete w2) ∧
     fanned_out (SetAssignedTo agentId) (bulk_assignment_activity agentId)
       (if truthy agentId then "Leads assigned successfully"
        else "Leads unassigned successfully") w2) ∧
  succeeded `sublist_of` sel ∧
  ((∀ k, insert_error k = None) → succeeded = sel).
Proof.
  intros sel succeeded fanned_out.
  split; [|split; [|split]].
  - eexists. split; [intros cb; reflexivity|].
    pose proof (fanout_then_toast (bulk_status_activity newStatus)
                  insert_error (SetStatus newStatus)
                  "Status updated for selected leads" w) as H.
    cbv zeta in H. rewrite recorded_indexed in H. exact H.
  - eexists. split; [intros cb; reflexivity|].
    pose proof (fanout_then_toast (bulk_assignment_activity agentId)
                  insert_error (SetAssignedTo agentId)
                  (if truthy agentId then "Leads assigned successfully"
                   else "Leads unassigned successfully") w) as H.
    cbv zeta in H. rewrite recorded_indexed in H. exact H.
  - subst succeeded.
    assert (H : snd <$> List.filter
                          (λ kl, bool_decide (insert_error kl.1 = None))
                          (zip (seq 0 (length sel)) sel)
                `sublist_of` snd <$> zip (seq 0 (length sel)) sel)
      by apply fmap_sublist, List_filter_sublist.
    by rewrite snd_zip in H by (by rewrite length_seq).
  - intros Hall. subst succeeded. rewrite filter_all.
    + by rewrite snd_zip by (by rewrite length_seq).
    + intros kl _. by rewrite Hall, bool_decide_eq_true_2.
Qed.

(** X17: when the update of a bulk status change or of a bulk
    assignment is refused, nothing is written: the tables, the displayed
    leads and the selection stay as they were, no audit insert is sent,
    the completion callback is not called, and the user sees one error
    toast. *)
Theorem X17_bulk_update_refused (onActionComplete : World → World)
    (e : string) (insert_error : nat → option string) (newStatus : string)
    (agentId : option string) (w : World) :
  let w1 := BulkActions.handleStatusChange onActionComplete (Some e)
              insert_error newStatus w in
  let w2 := BulkActions.handleAssignAgent onActionComplete (Some e)
              insert_error agentId w in
  (backend w1 = backend w ∧ leads w1 = leads w ∧
   selectedLeads w1 = selectedLeads w ∧
   requests w1 =
     requests w ++ [UpdateLeads (SetStatus newStatus) (id <$> selectedLeads w)] ∧
   toasts w1 = toasts w ++ [ToastError "Failed to update status"] ∧
   console w1 = console w ++ [ErrorUpdatingStatus e]) ∧
  (backend w2 = backend w ∧ leads w2 = leads w ∧
   selectedLeads w2 = selectedLeads w ∧
   requests w2 =
     requests w
       ++ [UpdateLeads (SetAssignedTo agentId) (id <$> selectedLeads w)] ∧
   toasts w2 = toasts w ++ [ToastError "Failed to assign agent"] ∧
   console w2 = console w ++ [ErrorAssigningAgent e]).
Proof. intros w1 w2. by repeat split. Qed.

(** X18: a bulk assignment whose update succeeds gives every row of the
    table with a selected identity the new assignee and leaves every
    other row as it was, keeps the number and order of the rows, and
    then calls the completion callback once, after one success toast. *)
Theorem X18_bulk_assignment (insert_error : nat → option string)
    (agentId : option string) (w : World) :
  let ids := id <$> selectedLeads w in
  ∃ w1,
    (∀ onActionComplete,
       BulkActions.handleAssignAgent onActionComplete None insert_error
         agentId w = onActionComplete w1) ∧
    length (leads_table (backend w1)) = length (leads_table (backend w)) ∧
    id <$> leads_table (backend w1) = id <$> leads_table (backend w) ∧
    (∀ i l, leads_table (backend w) !! i = Some l →
       ∃ l', leads_table (backend w1) !! i = Some l' ∧
             (id l ∈ ids → assigned_to l' = agentId ∧
                           same_but_assigned_to l l') ∧
             (id l ∉ ids → l' = l)) ∧
    toasts w1 =
      toasts w ++ [ToastSuccess (if truthy agentId
                                 then "Leads assigned successfully"
                                 else "Leads unassigned successfully")] ∧
    selectedLeads w1 = selectedLeads w.
Proof.
  intros ids.
  set (mk := λ lead : Lead,
         {| lead_id := id lead; type := "assignment";
            description := if truthy agentId
                           then "Lead assigned (bulk update)"
                           else "Lead unassigned (bulk update)" |}).
  set (w0 := send (UpdateLeads (SetAssignedTo agentId) ids) None w).
  set (w1 := toast (ToastSuccess (if truthy agentId
                                  then "Leads assigned successfully"
                                  else "Leads unassigned successfully"))
               (BulkActions.insert_all mk insert_error 0 (selectedLeads w0)
                  w0)).
  destruct (insert_all_frame mk insert_error 0 (selectedLeads w0) w0)
    as (_ & Ht & _ & Hs & Hb).
  assert (Htbl : leads_table (backend w1) =
            ((λ l, if includes ids (id l)
                   then with_assigned_to agentId l else l)
               <$> leads_table (backend w))).
  { subst w1. cbn [backend toast]. by rewrite Hb. }
  exists w1. split; [done|].
  split; [by rewrite Htbl, length_fmap|].
  split; [rewrite Htbl; by apply ids_patch_where|].
  split; [|split].
  - intros i l Hl. rewrite Htbl. eexists.
    split; [by apply lookup_patch_where|].
    destruct (includes ids (id l)) eqn:E.
    + split; [|intros Hn; by apply includes_true in E].
      intros _. split; [done|]. apply same_but_assigned_to_with_assigned_to.
    + split; [|done]. intros Hin%includes_true. congruence.
  - subst w1. cbn [toasts toast]. by rewrite Ht.
  - subst w1. cbn [selectedLeads toast]. by rewrite Hs.
Qed.

(** X19: the three ways a bulk deletion by a viewer who passed the
    gate can end. Declining the confirmation changes nothing at all. A
    refused delete leaves the tables alone, shows one error toast and
    does not call the completion callback. A delete that succeeds removes
    from the table exactly the rows with a selected identity, keeps the
    other rows in order, and calls the callback once. *)
Theorem X19_bulk_deletion_outcomes (onActionComplete : World → World)
    (e : string) (w : World) :
  let ids := id <$> selectedLeads w in
  BulkActions.handleDeleteLeads onActionComplete true false None w = w ∧
  BulkActions.handleDeleteLeads onActionComplete true false (Some e) w = w ∧
  (let w1 := BulkActions.handleDeleteLeads onActionComplete true true
               (Some e) w in
   backend w1 = backend w ∧ leads w1 = leads w ∧
   selectedLeads w1 = selectedLeads w ∧
   requests w1 = requests w ++ [DeleteLeads ids] ∧
   toasts w1 = toasts w ++ [ToastError "Failed to delete leads"] ∧
   console w1 = console w ++ [ErrorDeletingLeads e]) ∧
  ∃ w2,
    BulkActions.handleDeleteLeads onActionComplete true true None w
    = onActionComplete w2 ∧
    leads_table (backend w2)
    = List.filter (untouched ids) (leads_table (backend w)) ∧
    (∀ l, l ∈ leads_table (backend w2) ↔
          l ∈ leads_table (backend w) ∧ id l ∉ ids) ∧
    lead_activities (backend w2) = lead_activities (backend w) ∧
    toasts w2 = toasts w ++ [ToastSuccess "Leads deleted successfully"].
Proof.
  intros ids. split; [done|]. split; [done|]. split; [by repeat split|].
  eexists. split; [reflexivity|]. split; [reflexivity|].
  split; [|done].
  intros l. cbn. fold ids. rewrite elem_of_List_filter.
  rewrite negb_true_iff. unfold includes. rewrite bool_decide_eq_false. done.
Qed.

(** X20: with the completion callback of the page, every bulk action
    that succeeds ends with an empty selection, so the bar is no longer
    rendered, whatever the service answers to the refetch; an action
    whose update or delete is refused keeps the selection, so the user
    can try again. *)
Theorem X20_selection_after_bulk_action (rq : Backend → nat → nat → Response)
    (currentUser : option CurrentUser) (subs : list string)
    (insert_error : nat → option string) (newStatus e : string)
    (agentId : option string) (w : World) :
  let done_ := SalesLeads.onActionComplete rq currentUser subs in
  let cleared w' :=
    selectedLeads w' = [] ∧ dataTableSelection w' = ∅ ∧
    bar_rendered w' = false in
  cleared (BulkActions.handleStatusChange done_ None insert_error newStatus w) ∧
  cleared (BulkActions.handleAssignAgent done_ None insert_error agentId w) ∧
  cleared (BulkActions.handleDeleteLeads done_ true true None w) ∧
  selectedLeads
    (BulkActions.handleStatusChange done_ (Some e) insert_error newStatus w)
  = selectedLeads w ∧
  selectedLeads
    (BulkActions.handleAssignAgent done_ (Some e) insert_error agentId w)
  = selectedLeads w ∧
  selectedLeads (BulkActions.handleDeleteLeads done_ true true (Some e) w)
  = selectedLeads w.
Proof.
  intros done_ cleared.
  assert (Hc : ∀ w', cleared (done_ w')) by (intros w'; by repeat split).
  split; [apply Hc|]. split; [apply Hc|]. split; [apply Hc|]. done.
Qed.

(** ** The agents offered by the bulk-action bar *)

Lemma findIndex_lookup {A} (p : A → bool) (xs : list A) (i : nat) :
  findIndex p xs = Some i →
  ∃ x, xs !! i = Some x ∧ p x = true ∧
       ∀ j y, j < i → xs !! j = Some y → p y = false.
Proof.
  revert i. induction xs as [|x xs IH]; intros i; simpl; [done|].
  destruct (p x) eqn:E.
  - intros [= <-]. exists x. split; [done|]. split; [done|]. intros; lia.
  - destruct (findIndex p xs) as [k|]; [|done]. simpl. intros [= <-].
    destruct (IH k eq_refl) as (y & Hy & Hp & Hfirst).
    exists y. split; [done|]. split; [done|].
    intros [|j] z Hj Hz; simpl in Hz.
    + by inversion Hz; subst.
    + apply (Hfirst j); [lia|done].
Qed.

Lemma findIndex_exists {A} (p : A → bool) (xs : list A) (x : A) :
  x ∈ xs → p x = true → is_Some (findIndex p xs).
Proof.
  induction xs as [|y xs IH]; simpl; [by intros ?%elem_of_nil|].
  intros [->|Hin]%elem_of_cons Hp.
  - by rewrite Hp.
  - destruct (p y); [done|]. destruct (IH Hin Hp) as [k ->]. done.
Qed.

Lemma elem_of_zip_seq {A} (xs : list A) (i : nat) (x : A) :
  (i, x) ∈ zip (seq 0 (length xs)) xs ↔ xs !! i = Some x.
Proof.
  rewrite list_elem_of_lookup. split.
  - intros (j & Hj). apply lookup_zip_with_Some in Hj
      as (a & b & [= <- <-] & Ha & Hb).
    apply lookup_seq in Ha as [-> _]. done.
  - intros Hx. exists i. apply lookup_zip_with_Some. exists i, x.
    split; [done|]. split; [|done]. apply lookup_seq. split; [done|].
    by eapply lookup_lt_Some.
Qed.

Lemma elem_of_filter_indexed {A} (p : A → nat → bool) (xs : list A) (x : A) :
  x ∈ filter_indexed p xs ↔ ∃ i, xs !! i = Some x ∧ p x i = true.
Proof.
  unfold filter_indexed. rewrite list_elem_of_fmap. split.
  - intros ([i y] & -> & [Hin Hp]%elem_of_List_filter). exists i.
    split; [by apply elem_of_zip_seq|done].
  - intros (i & Hx & Hp). exists (i, x). split; [done|].
    apply elem_of_List_filter. split; [by apply elem_of_zip_seq|done].
Qed.

Lemma filter_indexed_sublist {A} (p : A → nat → bool) (xs : list A) :
  filter_indexed p xs `sublist_of` xs.
Proof.
  unfold filter_indexed.
  assert (H : snd <$> List.filter (λ ix, p ix.2 ix.1)
                        (zip (seq 0 (length xs)) xs)
              `sublist_of` snd <$> zip (seq 0 (length xs)) xs)
    by apply fmap_sublist, List_filter_sublist.
  by rewrite snd_zip in H by (by rewrite length_seq).
Qed.

Lemma NoDup_zip_seq {A} (xs : list A) : NoDup (zip (seq 0 (length xs)) xs).
Proof.
  apply (NoDup_fmap_1 fst). rewrite fst_zip by (by rewrite length_seq).
  apply NoDup_seq.
Qed.

Lemma same_id_pred (x y : CurrentUser) (xs : list CurrentUser) :
  user_id x = user_id y →
  findIndex (λ z, str_eqb (user_id z) (user_id x)) xs
  = findIndex (λ z, str_eqb (user_id z) (user_id y)) xs.
Proof. by intros ->. Qed.

(** X21: removing duplicate users keeps, for every identity of the
    list, its first row and no other: the result has distinct
    identities, is a sub-list of the input in the same order, loses no
    identity, and is the input itself when the identities were already
    distinct. *)
Theorem X21_uniqueUsers_first_rows (xs : list CurrentUser) :
  NoDup (user_id <$> uniqueUsers xs) ∧
  uniqueUsers xs `sublist_of` xs ∧
  (∀ x, x ∈ xs → ∃ y, y ∈ uniqueUsers xs ∧ user_id y = user_id x) ∧
  (∀ y, y ∈ uniqueUsers xs →
     ∃ i, xs !! i = Some y ∧
          ∀ j z, j < i → xs !! j = Some z → user_id z ≠ user_id y) ∧
  (NoDup (user_id <$> xs) → uniqueUsers xs = xs).
Proof.
  set (keep := λ (user : CurrentUser) (index : nat),
         bool_decide
           (Some index =
            findIndex (λ x, str_eqb (user_id x) (user_id user)) xs)).
  assert (Hkeep : ∀ x i, keep x i = true ↔
            findIndex (λ z, str_eqb (user_id z) (user_id x)) xs = Some i).
  { intros x i. unfold keep. rewrite bool_decide_eq_true. split; congruence. }
  split; [|split; [|split; [|split]]].
  - unfold uniqueUsers, filter_indexed. fold keep.
    rewrite <- list_fmap_compose.
    apply NoDup_fmap_2_strong;
      [|eapply sublist_NoDup; [apply NoDup_zip_seq|apply List_filter_sublist]].
    intros [i x] [j y] [Hx Hkx]%elem_of_List_filter
      [Hy Hky]%elem_of_List_filter Hid. simpl in *.
    apply Hkeep in Hkx, Hky. apply elem_of_zip_seq in Hx, Hy.
    rewrite (same_id_pred x y xs Hid) in Hkx.
    assert (i = j) as -> by congruence. congruence.
  - apply filter_indexed_sublist.
  - intros x Hx.
    destruct (findIndex_exists (λ z, str_eqb (user_id z) (user_id x)) xs x Hx)
      as [i Hi]; [by apply str_eqb_true|].
    destruct (findIndex_lookup _ _ _ Hi) as (y & Hy & Hp & _).
    apply str_eqb_true in Hp. exists y. split; [|done].
    apply elem_of_filter_indexed. exists i. split; [done|].
    apply Hkeep. by rewrite (same_id_pred y x xs Hp).
  - intros y (i & Hy & Hk)%elem_of_filter_indexed. exists i. split; [done|].
    apply Hkeep in Hk. destruct (findIndex_lookup _ _ _ Hk) as (_ & _ & _ & Hf).
    intros j z Hj Hz Hid. specialize (Hf j z Hj Hz).
    apply str_eqb_false in Hf. done.
  - intros Hnd. unfold uniqueUsers, filter_indexed. fold keep.
    rewrite filter_all; [by rewrite snd_zip by (by rewrite length_seq)|].
    intros [i x] Hx%elem_of_zip_seq. simpl. apply Hkeep.
    destruct (findIndex_exists (λ z, str_eqb (user_id z) (user_id x)) xs x)
      as [k Hk]; [by eapply list_elem_of_lookup_2|by apply str_eqb_true|].
    destruct (findIndex_lookup _ _ _ Hk) as (y & Hy & Hp & _).
    apply str_eqb_true in Hp. rewrite Hk. f_equal.
    eapply (NoDup_lookup _ _ _ _ Hnd); rewrite list_lookup_fmap.
    + by rewrite Hy.
    + rewrite Hx. simpl. by rewrite Hp.
Qed.

(** X22: the candidates fetchAvailableAgents collects for a viewer
    (the array [assignableUsers] of lines 50-66, before duplicates are
    removed and before the sort by name, which throws on a row without
    name). For an admin they are the rows of the directory with role
    agent, manager or desk, hence no admin; for a desk or manager viewer
    the rows of the directory whose identity is the viewer's or a
    subordinate's; for every other viewer the viewer alone, whatever
    the directory holds. *)
Theorem X22_assignable_users (user : CurrentUser)
    (subordinateIds : list string) (allUsers : list CurrentUser)
    (x : CurrentUser) :
  (role user = "admin" →
   (x ∈ assignableUsers user subordinateIds allUsers ↔
    x ∈ allUsers ∧ role x ∈ ["agent"; "manager"; "desk"])) ∧
  (role user = "desk" ∨ role user = "manager" →
   (x ∈ assignableUsers user subordinateIds allUsers ↔
    x ∈ allUsers ∧
    (user_id x = user_id user ∨ user_id x ∈ subordinateIds))) ∧
  (role user ≠ "admin" → role user ≠ "desk" → role user ≠ "manager" →
   assignableUsers user subordinateIds allUsers = [user]).
Proof.
  unfold assignableUsers. split; [|split].
  - intros ->. simpl. by rewrite elem_of_List_filter, includes_true.
  - intros Hr.
    assert (str_eqb (role user) "admin" = false) as ->.
    { apply str_eqb_false. by destruct Hr as [-> | ->]. }
    assert (includes ["desk"; "manager"] (role user) = true) as ->.
    { apply includes_true. destruct Hr as [-> | ->]; [by left|].
      right. by left. }
    rewrite elem_of_List_filter, orb_true_iff, str_eqb_true, includes_true.
    done.
  - intros Ha Hd Hm. apply str_eqb_false in Ha. rewrite Ha.
    assert (includes ["desk"; "manager"] (role user) = false) as ->; [|done].
    unfold includes. apply bool_decide_eq_false.
    intros [?|[?|[]%elem_of_nil]%elem_of_cons]%elem_of_cons; congruence.
Qed.

Lemma X22_assignable_users_witness :
  (role sample_admin = "admin" ∧
   (role sample_agent ≠ "admin" ∧ role sample_agent ≠ "desk" ∧
    role sample_agent ≠ "manager")) ∧
  (sample_admin ∈ assignableUsers sample_admin [] sample_users ↔
   sample_admin ∈ sample_users ∧
   role sample_admin ∈ ["agent"; "manager"; "desk"]) ∧
  assignableUsers sample_agent [] sample_users = [sample_agent].
Proof.
  split; [by repeat split|].
  destruct (X22_assignable_users sample_admin [] sample_users sample_admin)
    as (H1 & _).
  destruct (X22_assignable_users sample_agent [] sample_users sample_agent)
    as (_ & _ & H3).
  split; [by apply H1 | by apply H3].
Defined.

(** ** The date filter of the table *)

Section DateFilter.

Import DataTable.

Variable columnIds : gset string.
Variable getDateRange : DateFilterOption → string * string.

Lemma find_known (optionValue : string) :
  is_Some (find (λ opt, str_eqb (value opt) optionValue) DATE_FILTER_OPTIONS)
  ↔ known_option optionValue = true.
Proof.
  unfold known_option. rewrite bool_decide_eq_true, list_elem_of_fmap. split.
  - intros [opt Hf]. apply find_some in Hf as [Hin Hp].
    apply str_eqb_true in Hp. exists opt. split; [done|].
    by apply list_elem_of_In.
  - intros (opt & -> & Hin).
    destruct (find (λ o, str_eqb (value o) (value opt)) DATE_FILTER_OPTIONS)
      eqn:E; [done|].
    pose proof (find_none _ _ E opt) as Hn. simpl in Hn.
    apply list_elem_of_In in Hin. specialize (Hn Hin).
    apply str_eqb_false in Hn. done.
Qed.

Lemma dateRangesOf_length options customRange :
  length (dateRangesOf getDateRange options customRange)
  = length (List.filter known_option options)
    + (if complete_range customRange then 1 else 0).
Proof.
  unfold dateRangesOf. rewrite length_app. f_equal.
  - induction options as [|o options IH]; [done|].
    cbn [flat_map List.filter]. rewrite length_app, IH.
    pose proof (find_known o) as Hk.
    destruct (find _ DATE_FILTER_OPTIONS) as [opt|].
    + assert (known_option o = true) as -> by (apply Hk; eauto). done.
    + destruct (known_option o); [|done].
      destruct Hk as [_ Hk]. by destruct (Hk eq_refl).
  - destruct customRange as [[f t]|]; [|done]. simpl.
    by destruct (negb (str_eqb f "") && negb (str_eqb t "")).
Qed.

Lemma DATE_FILTER_OPTIONS_distinct : NoDup (value <$> DATE_FILTER_OPTIONS).
Proof. apply (bool_decide_unpack _). vm_compute. reflexivity. Qed.

(** The ranges of the selected options are those of the entries the
    options name, in the order of the selection. *)
Lemma option_ranges_chosen (options : list string) :
  ∃ chosen,
    Forall (λ opt, opt ∈ DATE_FILTER_OPTIONS) chosen ∧
    value <$> chosen = List.filter known_option options ∧
    flat_map
      (λ optionValue,
         match find (λ opt, str_eqb (value opt) optionValue)
                 DATE_FILTER_OPTIONS with
         | Some opt => [getDateRange opt]
         | None => []
         end) options
    = getDateRange <$> chosen.
Proof.
  induction options as [|o options (chosen & Hin & Hv & Hr)].
  - exists []. by split.
  - cbn [flat_map List.filter]. rewrite Hr.
    pose proof (find_known o) as Hk.
    destruct (find _ DATE_FILTER_OPTIONS) as [opt|] eqn:E.
    + assert (known_option o = true) as -> by (apply Hk; eauto).
      apply find_some in E as [Ho Hp]. apply str_eqb_true in Hp.
      exists (opt :: chosen). split; [|split].
      * constructor; [by apply list_elem_of_In|done].
      * by rewrite fmap_cons, Hv, Hp.
      * done.
    + destruct (known_option o).
      * destruct Hk as [_ Hk]. by destruct (Hk eq_refl).
      * by exists chosen.
Qed.

(** X24: applying the date filter to an existing column stores, in the
    order of the selection, the range of the entry of
    DATE_FILTER_OPTIONS each selected option names, followed by the
    custom range itself when both of its dates are filled in. Options
    that name no entry are ignored, no two entries share a name, and
    when nothing remains the filter of the column is removed. The
    filters of the other columns and the selections are not touched. *)
Theorem X24_date_filter_value (columnId : string) (options : list string)
    (customRange : option (string * string)) (t : TableState) :
  columnId ∈ columnIds →
  let t' := applyDateFilter columnIds getDateRange columnId options
              customRange t in
  let custom := match customRange with
                | Some r => if complete_range customRange then [r] else []
                | None => []
                end in
  NoDup (value <$> DATE_FILTER_OPTIONS) ∧
  (∃ chosen,
     Forall (λ opt, opt ∈ DATE_FILTER_OPTIONS) chosen ∧
     value <$> chosen = List.filter known_option options ∧
     filterValue t' !! columnId
     = match (getDateRange <$> chosen) ++ custom with
       | [] => None
       | r :: rs => Some (r :: rs)
       end) ∧
  (filterValue t' !! columnId = None ↔
   List.filter known_option options = [] ∧ complete_range customRange = false) ∧
  (∀ c, c ≠ columnId → filterValue t' !! c = filterValue t !! c) ∧
  selectedDateOptions t' = selectedDateOptions t ∧
  customDateRanges t' = customDateRanges t.
Proof.
  intros Hc t' custom. subst t'. unfold applyDateFilter.
  rewrite (bool_decide_eq_true_2 _ Hc). cbv zeta. cbn.
  pose proof (dateRangesOf_length options customRange) as Hlen.
  destruct (option_ranges_chosen options) as (chosen & Hin & Hv & Hr).
  assert (Hd : dateRangesOf getDateRange options customRange
               = (getDateRange <$> chosen) ++ custom).
  { unfold dateRangesOf. rewrite Hr. f_equal. subst custom.
    by destruct customRange as [[f d]|]. }
  split; [apply DATE_FILTER_OPTIONS_distinct|].
  destruct (dateRangesOf getDateRange options customRange) as [|r rs] eqn:E.
  - simpl. simpl in Hlen. rewrite lookup_delete_eq.
    split; [|split; [|split; [|done]]].
    + exists chosen. split; [done|]. split; [done|]. by rewrite <- Hd.
    + split; [intros _|done].
      destruct (List.filter known_option options); simpl in Hlen; [|lia].
      by destruct (complete_range customRange).
    + intros c Hne. by rewrite lookup_delete_ne.
  - simpl. rewrite lookup_insert_eq.
    split; [|split; [|split; [|done]]].
    + exists chosen. split; [done|]. split; [done|]. by rewrite <- Hd.
    + split; [done|]. intros [Hk Hcr]. rewrite Hk, Hcr in Hlen.
      simpl in Hlen. lia.
    + intros c Hne. by rewrite lookup_insert_ne.
Qed.

Lemma filter_ne_app_self (cur : list string) (v : string) :
  List.filter (λ opt, negb (str_eqb opt v)) (cur ++ [v])
  = List.filter (λ opt, negb (str_eqb opt v)) cur.
Proof.
  rewrite List.filter_app. simpl.
  assert (str_eqb v v = true) as -> by by apply str_eqb_true.
  simpl. by rewrite app_nil_r.
Qed.

Lemma table_eq (t1 t2 : TableState) :
  selectedDateOptions t1 = selectedDateOptions t2 →
  customDateRanges t1 = customDateRanges t2 →
  filterValue t1 = filterValue t2 → t1 = t2.
Proof. destruct t1, t2. simpl. by intros -> -> ->. Qed.

Lemma selected_applyDateFilter c o r t :
  selectedDateOptions (applyDateFilter columnIds getDateRange c o r t)
  = selectedDateOptions t.
Proof. unfold applyDateFilter. by case_bool_decide. Qed.

Lemma custom_applyDateFilter c o r t :
  customDateRanges (applyDateFilter columnIds getDateRange c o r t)
  = customDateRanges t.
Proof. unfold applyDateFilter. by case_bool_decide. Qed.

Lemma filterValue_applyDateFilter_congr c o r t1 t2 :
  filterValue t1 = filterValue t2 →
  filterValue (applyDateFilter columnIds getDateRange c o r t1)
  = filterValue (applyDateFilter columnIds getDateRange c o r t2).
Proof.
  unfold applyDateFilter. case_bool_decide; [|done].
  cbv zeta. cbn [filterValue]. by intros ->.
Qed.

(** The filter a call sets does not depend on the filter set before. *)
Lemma filterValue_applyDateFilter_override c o r t1 t2 o' r' :
  filterValue t1
  = filterValue (applyDateFilter columnIds getDateRange c o' r' t2) →
  filterValue (applyDateFilter columnIds getDateRange c o r t1)
  = filterValue (applyDateFilter columnIds getDateRange c o r t2).
Proof.
  unfold applyDateFilter. case_bool_decide; [|done].
  cbv zeta. cbn [filterValue]. intros ->.
  destruct (0 <? length (dateRangesOf getDateRange o r));
    destruct (0 <? length (dateRangesOf getDateRange o' r'));
    by rewrite ?insert_insert_eq, ?insert_delete_eq, ?delete_insert_eq,
         ?delete_delete_eq.
Qed.

(** X25: checking a date option and unchecking it again ends in the
    same state as unchecking it at once; if the option was not selected
    before, the selection of the column is back to what it was. After
    unchecking, the option does not occur in the selection at all. *)
Theorem X25_date_option_toggle (columnId optionValue : string)
    (t : TableState) :
  let check := handleDateOptionChange columnIds getDateRange columnId
                 optionValue true in
  let uncheck := handleDateOptionChange columnIds getDateRange columnId
                   optionValue false in
  let before := default [] (selectedDateOptions t !! columnId) in
  uncheck (check t) = uncheck t ∧
  (optionValue ∉ before →
   selectedDateOptions (uncheck (check t)) !! columnId = Some before) ∧
  optionValue
    ∉ default [] (selectedDateOptions (uncheck t) !! columnId).
Proof.
  intros check uncheck before.
  assert (Hun : selectedDateOptions (uncheck t) !! columnId
                = Some (List.filter (λ opt, negb (str_eqb opt optionValue))
                          before)).
  { unfold uncheck, handleDateOptionChange. cbv zeta.
    rewrite selected_applyDateFilter. cbn. by rewrite lookup_insert_eq. }
  assert (Hcur : default [] (selectedDateOptions (check t) !! columnId)
                 = before ++ [optionValue]).
  { unfold check, handleDateOptionChange. cbv zeta.
    rewrite selected_applyDateFilter. cbn. by rewrite lookup_insert_eq. }
  assert (Hcdr : customDateRanges (check t) = customDateRanges t).
  { unfold check, handleDateOptionChange. cbv zeta.
    by rewrite custom_applyDateFilter. }
  assert (Heq : uncheck (check t) = uncheck t).
  { apply table_eq.
    - unfold uncheck. unfold handleDateOptionChange at 1 2. cbv zeta.
      rewrite !selected_applyDateFilter. cbn [selectedDateOptions].
      rewrite Hcur, filter_ne_app_self. fold before.
      unfold check, handleDateOptionChange. cbv zeta.
      rewrite selected_applyDateFilter. cbn [selectedDateOptions].
      by rewrite insert_insert_eq.
    - unfold uncheck. unfold handleDateOptionChange at 1 2. cbv zeta.
      rewrite !custom_applyDateFilter. cbn [customDateRanges]. exact Hcdr.
    - unfold uncheck. unfold handleDateOptionChange at 1 2. cbv zeta.
      rewrite Hcur, filter_ne_app_self, Hcdr. fold before.
      eapply filterValue_applyDateFilter_override.
      cbn [filterValue]. unfold check, handleDateOptionChange. cbv zeta.
      by apply filterValue_applyDateFilter_congr. }
  split; [exact Heq|]. split.
  - intros Hn. rewrite Heq, Hun. f_equal. apply filter_all.
    intros o Ho. apply negb_true_iff, str_eqb_false. by intros ->.
  - rewrite Hun. simpl. intros [_ Hf]%elem_of_List_filter.
    apply negb_true_iff, str_eqb_false in Hf. done.
Qed.

(** X26: clearing the date filter of an existing column removes its
    filter, empties its selection, shows the Custom box unchecked, and
    is idempotent. For a column the table does not have, clearing and
    applying a filter change nothing, while checking an option still
    records the option although no filter can be set. *)
Theorem X26_clear_date_filter (columnId optionValue : string)
    (options : list string) (customRange : option (string * string))
    (t : TableState) :
  (columnId ∈ columnIds →
   let t' := clearDateFilter columnIds columnId t in
   filterValue t' !! columnId = None ∧
   selectedDateOptions t' !! columnId = Some [] ∧
   customChecked columnId t' = false ∧
   clearDateFilter columnIds columnId t' = t') ∧
  (columnId ∉ columnIds →
   clearDateFilter columnIds columnId t = t ∧
   applyDateFilter columnIds getDateRange columnId options customRange t = t ∧
   let t' := handleDateOptionChange columnIds getDateRange columnId
               optionValue true t in
   filterValue t' = filterValue t ∧
   optionValue ∈ default [] (selectedDateOptions t' !! columnId)).
Proof.
  split.
  - intros Hc t'. subst t'. unfold clearDateFilter, customChecked.
    rewrite !(bool_decide_eq_true_2 _ Hc). cbn.
    rewrite lookup_delete_eq, !lookup_insert_eq. cbn.
    split; [done|]. split; [done|]. split; [done|].
    by rewrite !insert_insert_eq, delete_delete_eq.
  - intros Hc. unfold clearDateFilter, handleDateOptionChange, applyDateFilter.
    rewrite !(bool_decide_eq_false_2 _ Hc). cbn.
    split; [done|]. split; [done|]. split; [done|].
    rewrite lookup_insert_eq. simpl. apply elem_of_app. right. by left.
Qed.

End DateFilter.

Lemma X24_date_filter_value_witness :
  "created_at" ∈ ({[ "created_at" ]} : gset string) ∧
  DataTable.filterValue
    (DataTable.applyDateFilter {[ "created_at" ]}
       (λ opt, (DataTable.value opt, DataTable.label opt))
       "created_at" ["today"; "tomorrow"; "last7Days"]
       (Some ("2024-01-01", "2024-01-31"))
       (DataTable.mkTable ∅ ∅ ∅)) !! "created_at"
  = Some [("today", "Today"); ("last7Days", "Last 7 Days");
          ("2024-01-01", "2024-01-31")] ∧
  ∃ chosen,
    Forall (λ opt, opt ∈ DataTable.DATE_FILTER_OPTIONS) chosen ∧
    DataTable.value <$> chosen = ["today"; "last7Days"] ∧
    DataTable.filterValue
      (DataTable.applyDateFilter {[ "created_at" ]}
         (λ opt, (DataTable.value opt, DataTable.label opt))
         "created_at" ["today"; "tomorrow"; "last7Days"]
         (Some ("2024-01-01", "2024-01-31"))
         (DataTable.mkTable ∅ ∅ ∅)) !! "created_at"
    = Some (((λ opt, (DataTable.value opt, DataTable.label opt)) <$> chosen)
            ++ [("2024-01-01", "2024-01-31")]).
Proof.
  assert (H : "created_at" ∈ ({[ "created_at" ]} : gset string))
    by (by apply elem_of_singleton).
  split; [exact H|]. split; [vm_compute; reflexivity|].
  pose proof (X24_date_filter_value {[ "created_at" ]}
                (λ opt, (DataTable.value opt, DataTable.label opt))
                "created_at" ["today"; "tomorrow"; "last7Days"]
                (Some ("2024-01-01", "2024-01-31"))
                (DataTable.mkTable ∅ ∅ ∅) H) as Hx.
  cbv zeta in Hx. destruct Hx as (_ & (chosen & Hin & Hv & Hf) & _).
  exists chosen. split; [exact Hin|]. split; [exact Hv|].
  rewrite Hf. destruct chosen as [|opt chosen]; [discriminate Hv|].
  reflexivity.
Defined.

(** ** The login form *)

(** X27: however a login attempt ends, the loading flag is cleared and
    nothing is navigated to. The success popup is shown exactly when the
    sign-in returned a session and no error, and then one request to
    the login log is made; a failure of that request, refused or
    thrown, changes neither the popup nor the loading flag. In every
    other case the failure popup is shown, the error is logged and
    nothing is posted. *)
Theorem X27_login_outcomes (r : Login.SignIn) (lr : Login.LogResponse)
    (st : Login.State) :
  let st' := Login.handleLogin r lr st in
  Login.loading st' = false ∧
  Login.navigated st' = Login.navigated st ∧
  Login.popup st' = Login.popup (Login.handleLogin r Login.Ok st) ∧
  (∀ uid, Login.error r = None → Login.session r = Some uid →
     Login.popup st'
     = Some {| Login.type := Login.success;
               Login.message := Login.success_message |} ∧
     Login.posted st' = Login.posted st ++ [uid]) ∧
  (Login.error r ≠ None ∨ Login.session r = None →
   Login.popup st'
   = Some {| Login.type := Login.failure;
             Login.message := Login.failure_message |} ∧
   Login.posted st' = Login.posted st ∧
   ∃ e, Login.console st' = Login.console st ++ [Login.ErrorLoggingIn e]).
Proof.
  intros st'. subst st'. unfold Login.handleLogin.
  destruct r as [[uid|] [e|]]; cbn.
  - split; [done|]. split; [done|]. split; [done|]. split; [done|].
    intros _. split; [done|]. split; [done|]. by eexists.
  - split; [done|]. split; [done|]. split; [done|]. split.
    + by intros ? _ [= <-].
    + by intros [?|?].
  - split; [done|]. split; [done|]. split; [done|]. split; [done|].
    intros _. split; [done|]. split; [done|]. by eexists.
  - split; [done|]. split; [done|]. split; [done|]. split; [done|].
    intros _. split; [done|]. split; [done|]. by eexists.
Qed.

(** X28: closing the popup after a login attempt. After a successful
    sign-in it navigates to the home route, once, and leaves the popup
    in place; after a failed one it removes the popup and navigates
    nowhere, which puts the form back in the state for a new attempt. *)
Theorem X28_popup_close_after_login (r : Login.SignIn)
    (lr : Login.LogResponse) (st : Login.State) :
  let st1 := Login.handleLogin r lr st in
  let st2 := Login.handlePopupClose st1 in
  (Login.error r = None → is_Some (Login.session r) →
   Login.navigated st2 = Login.navigated st ++ ["/"] ∧
   Login.popup st2 = Login.popup st1) ∧
  (Login.error r ≠ None ∨ Login.session r = None →
   Login.navigated st2 = Login.navigated st ∧
   Login.popup st2 = None ∧ Login.loading st2 = false ∧
   Login.posted st2 = Login.posted st).
Proof.
  intros st1 st2. subst st1 st2. unfold Login.handleLogin.
  destruct r as [[uid|] [e|]]; cbn.
  - split; [done|]. by intros _.
  - split; [done|]. by intros [?|?].
  - split; [done|]. by intros _.
  - split; [by intros _ [? ?]|]. by intros _.
Qed.

(** ** Single-lead changes: failures and the next refetch *)

(** X29: a single-lead status or assignment change whose update is
    refused changes neither the tables nor the displayed leads and
    shows one error toast; and when the update succeeds, a failure of
    the audit insert is invisible, for a status change as for an
    assignment change: the displayed leads, the toasts, the console, the
    requests and the leads table are the same as when the insert
    succeeds, only the audit record is missing. *)
Theorem X29_single_change_failures (e a : string) (ie : option string)
    (leadId newStatus : string) (agentId : option string) (w : World) :
  let refused1 := SalesLeads.handleStatusChange (Some e) ie leadId newStatus w in
  let refused2 := SalesLeads.handleAssignAgent (Some e) ie leadId agentId w in
  let logged1 := SalesLeads.handleStatusChange None None leadId newStatus w in
  let unlogged1 :=
    SalesLeads.handleStatusChange None (Some a) leadId newStatus w in
  let logged2 := SalesLeads.handleAssignAgent None None leadId agentId w in
  let unlogged2 :=
    SalesLeads.handleAssignAgent None (Some a) leadId agentId w in
  (backend refused1 = backend w ∧ leads refused1 = leads w ∧
   toasts refused1 = toasts w ++ [ToastError "Failed to update status"] ∧
   requests refused1
   = requests w ++ [UpdateLeads (SetStatus newStatus) [leadId]]) ∧
  (backend refused2 = backend w ∧ leads refused2 = leads w ∧
   toasts refused2 = toasts w ++ [ToastError "Failed to assign agent"] ∧
   requests refused2
   = requests w ++ [UpdateLeads (SetAssignedTo agentId) [leadId]]) ∧
  (leads unlogged1 = leads logged1 ∧ toasts unlogged1 = toasts logged1 ∧
   console unlogged1 = console w ∧ console logged1 = console w ∧
   requests unlogged1 = requests logged1 ∧
   leads_table (backend unlogged1) = leads_table (backend logged1) ∧
   lead_activities (backend unlogged1) = lead_activities (backend w) ∧
   lead_activities (backend logged1)
   = lead_activities (backend w)
       ++ [{| lead_id := leadId; type := "status_change";
              description := "Status changed to " +:+ newStatus |}]) ∧
  (leads unlogged2 = leads logged2 ∧ toasts unlogged2 = toasts logged2 ∧
   console unlogged2 = console w ∧ console logged2 = console w ∧
   requests unlogged2 = requests logged2 ∧
   leads_table (backend unlogged2) = leads_table (backend logged2) ∧
   lead_activities (backend unlogged2) = lead_activities (backend w) ∧
   lead_activities (backend logged2)
   = lead_activities (backend w)
       ++ [{| lead_id := leadId; type := "assignment";
              description := if truthy agentId then "Lead assigned"
                             else "Lead unassigned" |}]).
Proof.
  intros refused1 refused2 logged1 unlogged1 logged2 unlogged2.
  by repeat split.
Qed.




